(** * cache2go: an LRU cache with optional expiration (cache.go)

    A shallow embedding of [cache.go].  The Go heap is made explicit: every
    [*list.Element] created by [PushFront] is a handle into an allocation
    store, so that the recency list, the key map and the expiry slice can all
    point at one and the same element, exactly as the three fields of the Go
    struct do.  Mutating [en.value] or [en.timestamp] through one of them is
    therefore seen through the others. *)

From Stdlib Require Import ZArith Lia.
From stdpp Require Import gmap strings list fin_maps sorting.

Open Scope Z_scope.

(** ** time: instants and durations in nanoseconds *)

Module GoTime.
(** [time.Duration] is an int64. *)
Definition minDuration : Z := - 2 ^ 63.
Definition maxDuration : Z := 2 ^ 63 - 1.

(** [t.Add(d)] *)
Definition Add (t d : Z) : Z := t + d.

(** [t.After(u)] *)
Definition After (t u : Z) : bool := bool_decide (u < t).

(** [t.Sub(u)]: the difference, saturated to the range of a Duration. *)
Definition Sub (t u : Z) : Z :=
  let d := t - u in
  if bool_decide (d < minDuration) then minDuration
  else if bool_decide (maxDuration < d) then maxDuration
  else d.

(** [time.Sleep(d)] pauses for at least [d]; a negative or zero duration
    makes it return immediately.  [paused d] is the least time for which
    the caller is really suspended. *)
Definition paused (d : Z) : Z := Z.max 0 d.
End GoTime.

(** ** container/list, as the sequence of its element handles, front first *)

(** A handle to a [list.Element]: its index in the allocation store. *)
Abbreviation elem := nat (only parsing).

Module GoList.
(** Removes the first occurrence of [e]; the list is returned as it is when
    [e] does not occur. *)
Fixpoint remove1 (e : elem) (l : list elem) : list elem :=
  match l with
  | [] => []
  | x :: l' => if decide (x = e) then l' else x :: remove1 e l'
  end.

(** [list.New()] *)
Definition New : list elem := [].

(** [l.Len()] *)
Definition Len (l : list elem) : Z := Z.of_nat (length l).

(** [l.Back()]: the last element, or nil. *)
Definition Back (l : list elem) : option elem := last l.

(** [l.Remove(e)]: unlinks [e] if [e.list == l], that is, if [e] is an
    element of [l]; otherwise the list is not modified. *)
Definition Remove (e : elem) (l : list elem) : list elem := remove1 e l.

(** [l.MoveToFront(e)]: if [e] is not an element of [l], or is already its
    front, the list is not modified. *)
Definition MoveToFront (e : elem) (l : list elem) : list elem :=
  if bool_decide (e ∈ l) then e :: remove1 e l else l.
End GoList.

Section cache2go.
(** The dynamic type behind [interface{}]; the nil interface is [None]. *)
Context {V : Type}.

Definition iface := option V.

Record entry := Entry {
  key : string;
  value : iface;
  timestamp : Z
}.

(** The [Cache] struct.  A nil pointer, nil slice or nil map is [None].
    [store] is not a field of the struct: it is the heap, holding the
    [entry] that each allocated [list.Element] points to ([e.Value]), in
    allocation order.  Elements stay allocated after they are unlinked, as
    long as somebody (the sweeper, say) holds on to them. *)
Record Cache := mkCache {
  maxEntries : Z;
  lruIndex : option (list elem);
  ttlIndex : option (list elem);
  cache : option (gmap string elem);
  expiration : Z;
  store : list entry
}.

Definition with_lruIndex (l : list elem) (c : Cache) : Cache :=
  mkCache (maxEntries c) (Some l) (ttlIndex c) (cache c) (expiration c) (store c).
Definition with_ttlIndex (q : option (list elem)) (c : Cache) : Cache :=
  mkCache (maxEntries c) (lruIndex c) q (cache c) (expiration c) (store c).
Definition with_cache (m : option (gmap string elem)) (c : Cache) : Cache :=
  mkCache (maxEntries c) (lruIndex c) (ttlIndex c) m (expiration c) (store c).
Definition with_store (h : list entry) (c : Cache) : Cache :=
  mkCache (maxEntries c) (lruIndex c) (ttlIndex c) (cache c) (expiration c) h.

(** The elements of a slice; [len] and [range] treat nil as empty. *)
Definition slice (q : option (list elem)) : list elem := default [] q.

(** [make([]*list.Element, 0)] when expiration is on, else the old slice. *)
Definition fresh_ttlIndex (c : Cache) : option (list elem) :=
  if bool_decide (0 < expiration c) then Some [] else ttlIndex c.

(** [New(maxEntries, expire)].  Starting the sweeper is the business of
    [init] below. *)
Definition New (maxEntries : Z) (expire : Z) : Cache :=
  mkCache maxEntries (Some GoList.New)
          (if bool_decide (0 < expire) then Some [] else None)
          (Some ∅) expire [].

(** The zero value [Cache{}] with the two configuration fields set, as code
    of the package can build it: every pointer, slice and map is nil. *)
Definition zeroCache (maxEntries : Z) (expire : Z) : Cache :=
  mkCache maxEntries None None None expire [].

(** The loop of [removeElement] over [c.ttlIndex]: the first slot holding
    [e] is deleted by shifting the tail left and cutting the last slot. *)
Definition ttl_delete (e : elem) (q : option (list elem)) : option (list elem) :=
  GoList.remove1 e <$> q.

(** [c.removeElement(e)].  A method called through a nil [*list.List] is a
    panic ([None]).  [delete] on a nil map does nothing. *)
Definition removeElement (e : elem) (c : Cache) : option Cache :=
  l ← lruIndex c;
  let c1 := with_lruIndex (GoList.Remove e l) c in
  let c2 := if bool_decide (0 < expiration c1)
            then with_ttlIndex (ttl_delete e (ttlIndex c1)) c1 else c1 in
  match store c2 !! e with
  | Some kv => Some (with_cache (delete (key kv) <$> cache c2) c2)
  | None => Some c2
  end.

(** [c.removeOldest()] *)
Definition removeOldest (c : Cache) : option Cache :=
  match cache c with
  | None => Some c
  | Some _ =>
      l ← lruIndex c;
      match GoList.Back l with
      | Some e => removeElement e c
      | None => Some c
      end
  end.

(** Lines 72-78 of [Set]: the lazy initialisation of a zero-value cache. *)
Definition lazyInit (c : Cache) : Cache :=
  match cache c with
  | Some _ => c
  | None =>
      mkCache (maxEntries c) (Some GoList.New) (fresh_ttlIndex c) (Some ∅)
              (expiration c) (store c)
  end.

(** Lines 80-89 of [Set]: the key is present and maps to [e]. *)
Definition SetPresent (now : Z) (e : elem) (v : iface) (c : Cache) : option Cache :=
  l ← lruIndex c;
  en ← store c !! e;
  Some (with_store (<[e := Entry (key en) v now]> (store c))
          (with_lruIndex (GoList.MoveToFront e l) c)).

(** Lines 90-94 of [Set]: a new element for [k] is pushed to the front of the
    list [l], appended to the expiry slice and entered into the map [m]. *)
Definition insertNew (now : Z) (k : string) (v : iface)
    (m : gmap string elem) (l : list elem) (c : Cache) : Cache :=
  let e : elem := length (store c) in
  let c1 := with_store (store c ++ [Entry k v now]) (with_lruIndex (e :: l) c) in
  let c2 := if bool_decide (0 < expiration c1)
            then with_ttlIndex (Some (slice (ttlIndex c1) ++ [e])) c1 else c1 in
  with_cache (Some (<[k := e]> m)) c2.

(** Lines 90-98 of [Set]: the key is absent from the map [m]. *)
Definition SetAbsent (now : Z) (k : string) (v : iface)
    (m : gmap string elem) (c : Cache) : option Cache :=
  l ← lruIndex c;
  let c3 := insertNew now k v m l c in
  if bool_decide (maxEntries c3 ≠ 0)
     && bool_decide (maxEntries c3 < GoList.Len (slice (lruIndex c3)))
  then removeOldest c3 else Some c3.

(** [c.Set(key, value)], called when the clock reads [now]. *)
Definition Set_ (now : Z) (k : string) (v : iface) (c : Cache) : option Cache :=
  let c := lazyInit c in
  m ← cache c;
  match m !! k with
  | Some e => SetPresent now e v c
  | None => SetAbsent now k v m c
  end.

(** [c.Get(key)]: the cache afterwards and the pair [(value, ok)]. *)
Definition Get (k : string) (c : Cache) : option (Cache * (iface * bool)) :=
  match cache c with
  | None => Some (c, (None, false))
  | Some m =>
      match m !! k with
      | Some e =>
          l ← lruIndex c;
          en ← store c !! e;
          Some (with_lruIndex (GoList.MoveToFront e l) c, (value en, true))
      | None => Some (c, (None, false))
      end
  end.

(** [c.Delete(key)] *)
Definition Delete (k : string) (c : Cache) : option Cache :=
  match cache c with
  | None => Some c
  | Some m =>
      match m !! k with
      | Some e => removeElement e c
      | None => Some c
      end
  end.

(** [c.Len()] *)
Definition Len (c : Cache) : option Z :=
  match cache c with
  | None => Some 0
  | Some _ => l ← lruIndex c; Some (GoList.Len l)
  end.

(** [c.Flush()] *)
Definition Flush (c : Cache) : Cache :=
  mkCache (maxEntries c) (Some GoList.New) (fresh_ttlIndex c) (Some ∅)
          (expiration c) (store c).

(** ** The sweeper, [cleanExpired]

    One turn of the loop has two critical sections.  Under the read lock it
    looks at the head of [ttlIndex] and computes the expiry instant; the
    lock is released; then the clock is read, and the element found in the
    first section is removed under the write lock, or the sweeper sleeps.
    Calls of other goroutines can run between the two. *)

Inductive peeked :=
  | QueueEmpty
  | Head (e : elem) (exp : Z).

(** Lines 48-58. *)
Definition sweepPeek (c : Cache) : option peeked :=
  match slice (ttlIndex c) with
  | [] => Some QueueEmpty
  | e :: _ =>
      en ← store c !! e;
      Some (Head e (GoTime.Add (timestamp en) (expiration c)))
  end.

Inductive decision :=
  | Sleep (d : Z)
  | Remove (e : elem).

(** Lines 49-52 and 59-65: what the sweeper does with what it saw.  [now1]
    is the clock read by the test of line 59, [now2] the one read by line
    64. *)
Definition sweepDecide (expire : Z) (p : peeked) (now1 now2 : Z) : decision :=
  match p with
  | QueueEmpty => Sleep expire
  | Head e exp =>
      if GoTime.After now1 exp then Remove e else Sleep (GoTime.Sub now2 exp)
  end.

(** The expiry instant of lines 56-57 for an arbitrary element. *)
Definition expiryInstant (c : Cache) (e : elem) : option Z :=
  en ← store c !! e; Some (GoTime.Add (timestamp en) (expiration c)).

(** ** Interleavings of callers and the sweeper *)

Inductive sweeper :=
  | NotRunning              (* expiration is off: no goroutine *)
  | Idle                    (* at the top of the loop *)
  | Peeked (p : peeked).    (* between the two critical sections *)

Inductive event :=
  | CallSet (now : Z) (k : string) (v : iface)
  | CallGet (k : string)
  | CallDelete (k : string)
  | CallLen
  | CallFlush
  | SweepPeek
  | SweepAct (now1 now2 : Z).

Definition state : Type := Cache * sweeper.

(** [New] together with its [go c.cleanExpired()]. *)
Definition init (maxEntries expire : Z) : state :=
  (New maxEntries expire,
   if bool_decide (0 < expire) then Idle else NotRunning).

Definition step (ev : event) (s : state) : option state :=
  let '(c, sw) := s in
  match ev with
  | CallSet now k v => c' ← Set_ now k v c; Some (c', sw)
  | CallGet k => r ← Get k c; Some (r.1, sw)
  | CallDelete k => c' ← Delete k c; Some (c', sw)
  | CallLen => _ ← Len c; Some (c, sw)
  | CallFlush => Some (Flush c, sw)
  | SweepPeek =>
      match sw with
      | Idle => p ← sweepPeek c; Some (c, Peeked p)
      | _ => Some s
      end
  | SweepAct now1 now2 =>
      match sw with
      | Peeked p =>
          match sweepDecide (expiration c) p now1 now2 with
          | Remove e => c' ← removeElement e c; Some (c', Idle)
          | Sleep _ => Some (c, Idle)
          end
      | _ => Some s
      end
  end.

Fixpoint run (evs : list event) (s : state) : option state :=
  match evs with
  | [] => Some s
  | ev :: evs' => s' ← step ev s; run evs' s'
  end.

(** The schedules in which nothing runs between the two critical sections
    of a turn of the sweeper. *)
Fixpoint atomic (evs : list event) : bool :=
  match evs with
  | [] => true
  | SweepPeek :: SweepAct _ _ :: evs' => atomic evs'
  | SweepPeek :: _ => false
  | SweepAct _ _ :: _ => false
  | _ :: evs' => atomic evs'
  end.

(** The sweeper runs exactly when expiration is on, and is at the top of its
    loop. *)
Definition sweeper_at_rest (s : state) : Prop :=
  s.2 = NotRunning ∨ (s.2 = Idle ∧ 0 < expiration s.1).

(** ** Invariants *)

(** The recency list and the key map, read through nil. *)
Definition lru (c : Cache) : list elem := slice (lruIndex c).
Definition cmap (c : Cache) : gmap string elem := default ∅ (cache c).
Definition queue (c : Cache) : list elem := slice (ttlIndex c).

(** The key held by the entry of an allocated element. *)
Definition key_of (c : Cache) (e : elem) : option string := key <$> store c !! e.

(** The key-lookup map and the recency list describe the same key set. *)
Definition same_keys (c : Cache) : Prop :=
  ∀ k, is_Some (cmap c !! k) ↔ ∃ e, e ∈ lru c ∧ key_of c e = Some k.

(** With expiration on, the expiry queue holds exactly the live elements, in
    the order of their insertion.  Handles are given out in allocation order,
    so insertion order is the increasing order of handles. *)
Definition queue_live (c : Cache) : Prop :=
  0 < expiration c →
  (∀ e, e ∈ queue c ↔ e ∈ lru c) ∧ StronglySorted Nat.lt (queue c).

(** The structural invariant of a cache that only its callers touch. *)
Record wf (c : Cache) : Prop := Wf {
  wf_ptr : is_Some (cache c) → is_Some (lruIndex c);
  wf_nodup : NoDup (lru c);
  wf_alloc : ∀ e, e ∈ lru c → (e < length (store c))%nat;
  wf_map : ∀ k e, cmap c !! k = Some e ↔ e ∈ lru c ∧ key_of c e = Some k;
  wf_queue : queue_live c
}.

(** What every interleaving of callers and sweeper keeps: the map and the
    list exist, and whatever the map and the expiry slice point at has been
    allocated. *)
Record sound (c : Cache) : Prop := Sound {
  sd_map : is_Some (cache c);
  sd_list : is_Some (lruIndex c);
  sd_alloc : ∀ k e, cmap c !! k = Some e → (e < length (store c))%nat;
  sd_queue : ∀ e, e ∈ queue c → (e < length (store c))%nat
}.

(** ... and, for a cache of capacity [C], the bound on the recency list. *)
Definition bounded (C : Z) (c : Cache) : Prop :=
  maxEntries c = C ∧ sound c ∧ GoList.Len (lru c) ≤ C.

(** A key that [c.cache[key]] does not find. *)
Definition absent (k : string) (c : Cache) : Prop := cmap c !! k = None.

End cache2go.

Arguments insertNew : simpl never.
Arguments removeElement : simpl never.
Arguments removeOldest : simpl never.

(** ** Observations *)

Section observations.
Context {V : Type}.

(** The key and the value that the entry of an element holds. *)
Definition pair_of (h : list (@entry V)) (e : elem) : option (string * @iface V) :=
  (λ en, (key en, value en)) <$> h !! e.

(** What the cache holds, as the list of its keys with their values, the
    most recently used first. *)
Definition contents (c : @Cache V) : list (string * @iface V) :=
  omap (pair_of (store c)) (lru c).

(** What [Get] reports for [k], leaving aside the cache it returns. *)
Definition found (k : string) (c : @Cache V) : option (@iface V * bool) :=
  snd <$> Get k c.

(** The list after lines 96-98 of [Set] for capacity [C]: the last pair goes
    when there are more than [C] of them, unless [C] is zero. *)
Definition evict (C : Z) (l : list (string * @iface V)) : list (string * @iface V) :=
  if bool_decide (C ≠ 0) && bool_decide (C < Z.of_nat (length l))
  then removelast l else l.

(** What every interleaving of callers and sweeper keeps, for any capacity:
    the map and the list exist, the list has no element twice, every entry
    of the map points at a linked element that holds its key, and the expiry
    slice holds the linked elements in the order of their insertion. *)
Record linked (c : @Cache V) : Prop := Linked {
  lk_map : is_Some (cache c);
  lk_list : is_Some (lruIndex c);
  lk_nodup : NoDup (lru c);
  lk_alloc : ∀ e, e ∈ lru c → (e < length (store c))%nat;
  lk_entry : ∀ k e, cmap c !! k = Some e → e ∈ lru c ∧ key_of c e = Some k;
  lk_qalloc : ∀ e, e ∈ queue c → (e < length (store c))%nat;
  lk_queue : queue_live c
}.

(** A cache of negative capacity that holds nothing. *)
Record hollow (c : @Cache V) : Prop := Hollow {
  hl_cap : maxEntries c < 0;
  hl_map : cache c = Some ∅;
  hl_list : lruIndex c = Some [];
  hl_queue : queue c = []
}.

(** The calls [Set(k, v)] for a list of keys with their values, one after the
    other, the clock reading [now + i] at the [i]-th. *)
Fixpoint inserts (now : Z) (kvs : list (string * @iface V)) : list (@event V) :=
  match kvs with
  | [] => []
  | (k, v) :: kvs' => CallSet now k v :: inserts (now + 1) kvs'
  end.

End observations.

(** ** Worked states *)

(** The cache that a trace of events leaves behind, from [New C expire]. *)
Definition after (C expire : Z) (evs : list (@event Z)) : @Cache Z :=
  match run evs (init C expire) with
  | Some s => s.1
  | None => New C expire
  end.

(** Capacity 1, holding the single key ["a"]. *)
Definition one_slot : @Cache Z := after 1 0 [CallSet 0 "a" (Some 1)].

(** Capacity 2 holding two keys, ["a"] the older one. *)
Definition two_slots : @Cache Z :=
  after 2 0 [CallSet 0 "a" (Some 1); CallSet 1 "b" (Some 2)].

(** Expiration after 10ns: ["k"] is written at 0 and written again at 5. *)
Definition rewritten : @Cache Z :=
  after 0 10 [CallSet 0 "k" (Some 1); CallSet 5 "k" (Some 2)].

(** Expiration after 10ns: ["k"] is written at 0 and nothing else happens. *)
Definition unexpired : @Cache Z := after 0 10 [CallSet 0 "k" (Some 1)].

(** Expiration after 10ns.  The sweeper finds the element of ["k"] at the
    head of the queue and lets go of the lock; before it comes back, ["k"] is
    deleted and written again; at 12 the sweeper removes what it had found. *)
Definition stale_prefix : list (@event Z) :=
  [CallSet 0 "k" (Some 1); SweepPeek; CallDelete "k"; CallSet 11 "k" (Some 2)].

(** The events of [stale_prefix], and then the removal by the sweeper. *)
Definition stale_trace : list (@event Z) := stale_prefix ++ [SweepAct 12 12].

(** Capacity [C], expiration after 10ns, after [stale_trace]: the element of
    ["k"] is linked, and the map has no entry for ["k"]. *)
Definition orphaned (C : Z) : @Cache Z := after C 10 stale_trace.

(** Capacity 2, after [stale_trace] and one more write of ["k"] at 13: the
    list holds the new element of ["k"] in front of the old one. *)
Definition rewritten_orphan : @Cache Z :=
  after 2 10 (stale_trace ++ [CallSet 13 "k" (Some 3)]).

(** Expiration after 10ns: ["a"] is written at 0 and ["b"] at 1. *)
Definition two_timed : @Cache Z :=
  after 0 10 [CallSet 0 "a" (Some 1); CallSet 1 "b" (Some 2)].

(** * Proofs *)

(** ** The list operations *)

Section golist.
Import GoList.
Implicit Types (e x : elem) (l : list elem).

Lemma remove1_cons_ne e x l : x ≠ e → remove1 e (x :: l) = x :: remove1 e l.
Proof. intros Hne. simpl. by rewrite decide_False. Qed.

Lemma remove1_notin e l : e ∉ l → remove1 e l = l.
Proof.
  induction l as [|x l IH]; simpl; [done|].
  intros Hn. apply not_elem_of_cons in Hn as [Hne Hn].
  destruct (decide (x = e)); [congruence|]. by rewrite IH.
Qed.

Lemma remove1_length e l :
  e ∈ l → (length (remove1 e l) + 1 = length l)%nat.
Proof.
  induction l as [|x l IH]; simpl.
  - by intros ?%elem_of_nil.
  - intros Hin. destruct (decide (x = e)); [lia|].
    apply elem_of_cons in Hin as [->|Hin]; [done|].
    simpl. specialize (IH Hin). lia.
Qed.

Lemma remove1_length_le e l : (length (remove1 e l) ≤ length l)%nat.
Proof.
  induction l as [|x l IH]; simpl; [done|].
  destruct (decide (x = e)); simpl; lia.
Qed.

Lemma remove1_subset e x l : x ∈ remove1 e l → x ∈ l.
Proof.
  induction l as [|y l IH]; simpl; [done|].
  destruct (decide (y = e)); rewrite ?elem_of_cons; intuition congruence.
Qed.

Lemma remove1_elem_of_ne e x l : x ≠ e → x ∈ remove1 e l ↔ x ∈ l.
Proof.
  intros Hne. induction l as [|y l IH]; simpl; [done|].
  destruct (decide (y = e)); rewrite ?elem_of_cons; intuition congruence.
Qed.

Lemma remove1_NoDup e l : NoDup l → NoDup (remove1 e l).
Proof.
  induction 1 as [|y l Hy Hl IH]; simpl; [constructor|].
  destruct (decide (y = e)); [done|].
  constructor; [|done]. intros ?%remove1_subset. done.
Qed.

Lemma remove1_gone e l : NoDup l → e ∉ remove1 e l.
Proof.
  induction 1 as [|y l Hy Hl IH]; simpl; [apply not_elem_of_nil|].
  destruct (decide (y = e)) as [->|]; [done|].
  rewrite not_elem_of_cons. split; [congruence|done].
Qed.

Lemma remove1_elem_of e x l : NoDup l → x ∈ remove1 e l ↔ x ∈ l ∧ x ≠ e.
Proof.
  intros Hnd. destruct (decide (x = e)) as [->|Hne].
  - pose proof (remove1_gone e l Hnd). intuition congruence.
  - rewrite remove1_elem_of_ne by done. intuition congruence.
Qed.

Lemma remove1_sorted e l :
  StronglySorted Nat.lt l → StronglySorted Nat.lt (remove1 e l).
Proof.
  induction 1 as [|y l Hl IH Hy]; simpl; [constructor|].
  case_decide; [done|].
  constructor; [done|]. rewrite Forall_forall in Hy |- *.
  intros z ?%remove1_subset. by apply Hy.
Qed.

Lemma remove1_last e l :
  NoDup l → last l = Some e → remove1 e l = removelast l.
Proof.
  induction 1 as [|y l Hy Hl IH]; simpl; [done|].
  destruct l as [|z l'].
  - intros [= ->]. by rewrite decide_True.
  - intros Hlast. destruct (decide (y = e)) as [->|].
    + exfalso. apply Hy. change (last (z :: l') = Some e) in Hlast.
      by apply last_Some_elem_of.
    + f_equal. by apply IH.
Qed.

Lemma MoveToFront_elem_of e x l : x ∈ MoveToFront e l ↔ x ∈ l.
Proof.
  unfold MoveToFront. case_bool_decide as Hin; [|done].
  destruct (decide (x = e)) as [->|Hne].
  - rewrite elem_of_cons. intuition congruence.
  - rewrite elem_of_cons, remove1_elem_of_ne by done. intuition congruence.
Qed.

Lemma MoveToFront_length e l : length (MoveToFront e l) = length l.
Proof.
  unfold MoveToFront. case_bool_decide as Hin; [|done].
  simpl. pose proof (remove1_length e l Hin). lia.
Qed.

Lemma MoveToFront_NoDup e l : NoDup l → NoDup (MoveToFront e l).
Proof.
  intros Hnd. unfold MoveToFront. case_bool_decide as Hin; [|done].
  constructor; [by apply remove1_gone | by apply remove1_NoDup].
Qed.

End golist.

(** ** The configuration fields are never written *)

Section configuration.
Context {V : Type}.
Implicit Types (c : @Cache V) (e : elem) (k : string) (v : @iface V).

Lemma removeElement_conf e c c' :
  removeElement e c = Some c' →
  maxEntries c' = maxEntries c ∧ expiration c' = expiration c ∧
  store c' = store c.
Proof.
  unfold removeElement. destruct (lruIndex c) as [l|]; simpl; [|done].
  case_bool_decide; simpl; destruct (store c !! e); by intros [= <-].
Qed.

Lemma removeOldest_conf c c' :
  removeOldest c = Some c' →
  maxEntries c' = maxEntries c ∧ expiration c' = expiration c ∧
  store c' = store c.
Proof.
  unfold removeOldest. destruct (cache c); [|by intros [= <-]].
  destruct (lruIndex c) as [l|]; simpl; [|done].
  destruct (GoList.Back l); [apply removeElement_conf|by intros [= <-]].
Qed.

Lemma lazyInit_conf c :
  maxEntries (lazyInit c) = maxEntries c ∧
  expiration (lazyInit c) = expiration c ∧ store (lazyInit c) = store c.
Proof. unfold lazyInit. by destruct (cache c). Qed.

Lemma Set_conf now k v c c' :
  Set_ now k v c = Some c' →
  maxEntries c' = maxEntries c ∧ expiration c' = expiration c.
Proof.
  unfold Set_. destruct (lazyInit_conf c) as (Hm & He & _).
  destruct (cache (lazyInit c)) as [m|]; simpl; [|done].
  destruct (m !! k) as [e|].
  - unfold SetPresent. destruct (lruIndex (lazyInit c)); simpl; [|done].
    destruct (store (lazyInit c) !! e); simpl; [|done].
    intros [= <-]. simpl. by rewrite Hm, He.
  - unfold SetAbsent. destruct (lruIndex (lazyInit c)) as [l|]; simpl; [|done].
    assert (maxEntries (insertNew now k v m l (lazyInit c)) = maxEntries c ∧
            expiration (insertNew now k v m l (lazyInit c)) = expiration c)
      as [Hm3 He3].
    { unfold insertNew. simpl. case_bool_decide; simpl; by rewrite Hm, He. }
    destruct (_ && _).
    + intros (? & ? & _)%removeOldest_conf. split; congruence.
    + by intros [= <-].
Qed.

Lemma Get_conf k c c' r :
  Get k c = Some (c', r) →
  maxEntries c' = maxEntries c ∧ expiration c' = expiration c.
Proof.
  unfold Get. destruct (cache c) as [m|]; [|by intros [= <- _]].
  destruct (m !! k) as [e|]; [|by intros [= <- _]].
  destruct (lruIndex c); simpl; [|done].
  destruct (store c !! e); simpl; [|done]. by intros [= <- _].
Qed.

Lemma Delete_conf k c c' :
  Delete k c = Some c' →
  maxEntries c' = maxEntries c ∧ expiration c' = expiration c.
Proof.
  unfold Delete. destruct (cache c) as [m|]; [|by intros [= <-]].
  destruct (m !! k) as [e|]; [|by intros [= <-]].
  intros (? & ? & _)%removeElement_conf. done.
Qed.

End configuration.

(** ** The structural invariant *)

Section invariant.
Context {V : Type}.
Implicit Types (c : @Cache V) (e : elem) (k : string) (v : @iface V)
  (l q : list elem) (m : gmap string elem).

Lemma sorted_NoDup q : StronglySorted Nat.lt q → NoDup q.
Proof.
  induction 1 as [|y q Hq IH Hy]; constructor; [|done].
  intros Hin. rewrite Forall_forall in Hy. specialize (Hy _ Hin).
  unfold Nat.lt in Hy. lia.
Qed.

Lemma lru_Some c l : lruIndex c = Some l → lru c = l.
Proof. unfold lru. by intros ->. Qed.

Lemma cmap_Some c m : cache c = Some m → cmap c = m.
Proof. unfold cmap. by intros ->. Qed.

Lemma lru_elem_ptr c e : e ∈ lru c → is_Some (lruIndex c).
Proof.
  unfold lru. destruct (lruIndex c); simpl; [eauto|]. by intros ?%elem_of_nil.
Qed.

Lemma wf_key c e : wf c → e ∈ lru c → ∃ k, key_of c e = Some k ∧ cmap c !! k = Some e.
Proof.
  intros Hwf Hin. pose proof (wf_alloc c Hwf e Hin) as Hlt.
  apply lookup_lt_is_Some in Hlt as [en Hen].
  exists (key en). assert (key_of c e = Some (key en)) as Hk.
  { unfold key_of. by rewrite Hen. }
  split; [done|]. by apply (wf_map c Hwf).
Qed.

Lemma wf_nil_map c : wf c → cache c = None → lru c = [].
Proof.
  intros Hwf Hnil. destruct (lru c) as [|e l] eqn:Hl; [done|].
  assert (e ∈ lru c) as Hin by (rewrite Hl; left).
  destruct (wf_key c e Hwf Hin) as (k & _ & Hm).
  unfold cmap in Hm. rewrite Hnil in Hm. simpl in Hm. by rewrite lookup_empty in Hm.
Qed.

Lemma wf_New (C expire : Z) : wf (New (V:=V) C expire).
Proof.
  split; unfold lru, cmap, queue_live, queue, key_of; simpl.
  - eauto.
  - constructor.
  - by intros e ?%elem_of_nil.
  - intros k e. rewrite lookup_empty. split; [done|]. by intros [?%elem_of_nil _].
  - intros _. case_bool_decide; simpl; split; done || constructor.
Qed.

Lemma wf_zeroCache (C expire : Z) : wf (zeroCache (V:=V) C expire).
Proof.
  split; unfold lru, cmap, queue_live, queue, key_of; simpl.
  - by intros [? [=]].
  - constructor.
  - by intros e ?%elem_of_nil.
  - intros k e. rewrite lookup_empty. split; [done|]. by intros [?%elem_of_nil _].
  - intros _. split; done || constructor.
Qed.

Lemma wf_Flush c : wf (Flush c).
Proof.
  split; unfold lru, cmap, queue_live, queue, key_of, fresh_ttlIndex; simpl.
  - eauto.
  - constructor.
  - by intros e ?%elem_of_nil.
  - intros k e. rewrite lookup_empty. split; [done|]. by intros [?%elem_of_nil _].
  - intros Hexp. unfold fresh_ttlIndex, lru. simpl.
    rewrite bool_decide_eq_true_2 by done. simpl.
    split; done || constructor.
Qed.

Lemma wf_lazyInit c : wf c → wf (lazyInit c).
Proof.
  intros Hwf. unfold lazyInit. destruct (cache c) eqn:Hc; [done|].
  apply (wf_Flush c).
Qed.

Lemma lazyInit_ptr c :
  wf c → ∃ m l, cache (lazyInit c) = Some m ∧ lruIndex (lazyInit c) = Some l.
Proof.
  intros Hwf. unfold lazyInit. destruct (cache c) as [m|] eqn:Hc; simpl; [|eauto].
  destruct (wf_ptr c Hwf) as [l Hl]; [by rewrite Hc|]. eauto.
Qed.

(** The result of [removeElement], field by field. *)
Lemma removeElement_eq c e l :
  lruIndex c = Some l →
  removeElement e c =
    Some (mkCache (maxEntries c) (Some (GoList.remove1 e l))
            (if bool_decide (0 < expiration c)
             then GoList.remove1 e <$> ttlIndex c else ttlIndex c)
            (match store c !! e with
             | Some kv => delete (key kv) <$> cache c
             | None => cache c
             end)
            (expiration c) (store c)).
Proof.
  intros Hl. unfold removeElement. rewrite Hl. simpl.
  case_bool_decide; simpl; by destruct (store c !! e).
Qed.

Lemma wf_removeElement c e :
  wf c → e ∈ lru c →
  ∃ c' k, removeElement e c = Some c' ∧ wf c' ∧ key_of c e = Some k ∧
    lru c' = GoList.remove1 e (lru c) ∧ cmap c' = delete k (cmap c) ∧
    store c' = store c ∧ maxEntries c' = maxEntries c ∧
    expiration c' = expiration c ∧
    (is_Some (cache c) → is_Some (cache c')).
Proof.
  intros Hwf Hin. destruct (lru_elem_ptr c e Hin) as [l Hl].
  destruct (wf_key c e Hwf Hin) as (k & Hk & Hm).
  pose proof (lru_Some c l Hl) as Hlru.
  rewrite (removeElement_eq c e l Hl). eexists _, k. split; [done|].
  unfold key_of in Hk. destruct (store c !! e) as [kv|] eqn:Hkv; [|done].
  simpl in Hk. injection Hk as Hk.
  assert (∀ e', key_of (mkCache (maxEntries c) (Some (GoList.remove1 e l))
            (if bool_decide (0 < expiration c)
             then GoList.remove1 e <$> ttlIndex c else ttlIndex c)
            (delete (key kv) <$> cache c) (expiration c) (store c)) e'
          = key_of c e') as Hkey by done.
  assert (cmap (mkCache (maxEntries c) (Some (GoList.remove1 e l))
            (if bool_decide (0 < expiration c)
             then GoList.remove1 e <$> ttlIndex c else ttlIndex c)
            (delete (key kv) <$> cache c) (expiration c) (store c))
          = delete k (cmap c)) as Hcm.
  { unfold cmap. simpl. rewrite Hk. destruct (cache c); simpl; [done|].
    by rewrite delete_empty. }
  split; [|split; [by unfold key_of; rewrite Hkv, <- Hk|]].
  2: { unfold lru at 1. simpl. rewrite Hlru. repeat split; try done.
       simpl. intros [m' ->]. simpl. eauto. }
  split.
  - simpl. eauto.
  - unfold lru. simpl. apply remove1_NoDup. rewrite <- Hlru. apply Hwf.
  - unfold lru at 1. simpl. intros e' He'%remove1_subset.
    apply (wf_alloc c Hwf). by rewrite Hlru.
  - intros k' e'. rewrite Hcm, Hkey. unfold lru at 1. simpl.
    rewrite remove1_elem_of by (rewrite <- Hlru; apply Hwf).
    rewrite <- Hlru, lookup_delete. destruct (decide (k = k')) as [Hkk|Hkk].
    + split; [done|]. intros [[He' Hne] Hk']. exfalso. subst k'.
      apply Hne. assert (cmap c !! k = Some e') as Hm'.
      { apply (wf_map c Hwf). done. }
      congruence.
    + rewrite (wf_map c Hwf).
      split; [|intuition congruence]. intros [He' Hk']. split; [|done]. split; [done|].
      intros ->. apply Hkk. unfold key_of in Hk'. rewrite Hkv in Hk'.
      simpl in Hk'. congruence.
  - intros Hexp. simpl in Hexp. destruct (wf_queue c Hwf Hexp) as [Hq Hs].
    unfold queue, lru. simpl. rewrite bool_decide_eq_true_2 by done.
    unfold queue in Hq, Hs. destruct (ttlIndex c) as [q|]; simpl in *.
    + split; [|by apply remove1_sorted].
      intros e'. rewrite !remove1_elem_of, Hq, Hlru;
        [done | rewrite <- Hlru; apply Hwf | by apply sorted_NoDup].
    + split; [|constructor]. intros e'. rewrite Hq, Hlru.
      split; [intros He'; exfalso|by intros ?%remove1_subset].
      rewrite <- Hlru in He'. apply Hq in He'. by apply elem_of_nil in He'.
Qed.

End invariant.

Section operations.
Context {V : Type}.
Implicit Types (c : @Cache V) (e : elem) (k : string) (v : @iface V)
  (l q : list elem) (m : gmap string elem).

(** Reordering the list and rewriting entries without changing their keys
    keeps the invariant. *)
Lemma wf_reorder c l' (h' : list (@entry V)) :
  wf c → is_Some (lruIndex c) →
  (∀ x, x ∈ l' ↔ x ∈ lru c) → NoDup l' →
  length h' = length (store c) →
  (∀ x, key <$> h' !! x = key <$> store c !! x) →
  wf (mkCache (maxEntries c) (Some l') (ttlIndex c) (cache c) (expiration c) h').
Proof.
  intros Hwf Hp Hl Hnd Hlen Hkey. split; unfold lru, cmap, key_of; simpl.
  - eauto.
  - done.
  - intros x Hx. rewrite Hlen. apply (wf_alloc c Hwf). by apply Hl.
  - intros k x. rewrite Hkey, Hl. apply (wf_map c Hwf).
  - intros Hexp. destruct (wf_queue c Hwf Hexp) as [Hq Hs].
    unfold queue, lru in *. simpl. split; [|done]. intros x. by rewrite Hq, Hl.
Qed.

Lemma insert_same_key (h : list (@entry V)) e en v now x :
  h !! e = Some en →
  key <$> <[e := Entry (key en) v now]> h !! x = key <$> h !! x.
Proof.
  intros He. destruct (decide (e = x)) as [->|Hne].
  - rewrite list_lookup_insert_eq by (by eapply lookup_lt_Some). by rewrite He.
  - by rewrite list_lookup_insert_ne.
Qed.

Lemma wf_MoveToFront c e l :
  wf c → lruIndex c = Some l → wf (with_lruIndex (GoList.MoveToFront e l) c).
Proof.
  intros Hwf Hl. apply (wf_reorder c); [done|eauto| | |done|done].
  - intros x. rewrite MoveToFront_elem_of. by rewrite (lru_Some c l).
  - apply MoveToFront_NoDup. rewrite <- (lru_Some c l Hl). apply Hwf.
Qed.

Lemma wf_SetPresent c e l en v now :
  wf c → lruIndex c = Some l → store c !! e = Some en →
  SetPresent now e v c =
    Some (with_store (<[e := Entry (key en) v now]> (store c))
            (with_lruIndex (GoList.MoveToFront e l) c)) ∧
  wf (with_store (<[e := Entry (key en) v now]> (store c))
        (with_lruIndex (GoList.MoveToFront e l) c)).
Proof.
  intros Hwf Hl Hen. split.
  - unfold SetPresent. rewrite Hl. simpl. by rewrite Hen.
  - apply (wf_reorder c); [done|eauto| | | |].
    + intros x. rewrite MoveToFront_elem_of. by rewrite (lru_Some c l).
    + apply MoveToFront_NoDup. rewrite <- (lru_Some c l Hl). apply Hwf.
    + by rewrite length_insert.
    + intros x. by apply insert_same_key.
Qed.

(** The cache after lines 90-94, field by field. *)
Lemma insertNew_eq now k v m l c :
  insertNew now k v m l c =
    mkCache (maxEntries c) (Some (length (store c) :: l))
      (if bool_decide (0 < expiration c)
       then Some (slice (ttlIndex c) ++ [length (store c)]) else ttlIndex c)
      (Some (<[k := length (store c)]> m)) (expiration c)
      (store c ++ [Entry k v now]).
Proof. unfold insertNew. simpl. by case_bool_decide. Qed.

Lemma SetAbsent_eq now k v m l c :
  lruIndex c = Some l →
  SetAbsent now k v m c =
    if bool_decide (maxEntries c ≠ 0)
       && bool_decide (maxEntries c < GoList.Len (length (store c) :: l))
    then removeOldest (insertNew now k v m l c)
    else Some (insertNew now k v m l c).
Proof.
  intros Hl. unfold SetAbsent. rewrite Hl. cbn [mbind option_bind].
  by rewrite insertNew_eq.
Qed.

Lemma wf_insertNew now k v m l c :
  wf c → cache c = Some m → lruIndex c = Some l → m !! k = None →
  wf (insertNew now k v m l c).
Proof.
  intros Hwf Hm Hl Hk. rewrite insertNew_eq.
  pose proof (lru_Some c l Hl) as Hlru. pose proof (cmap_Some c m Hm) as Hcm.
  assert (∀ x, x ∈ l → (x < length (store c))%nat) as Hal.
  { intros x Hx. apply (wf_alloc c Hwf). by rewrite Hlru. }
  split; unfold lru, cmap, key_of; simpl.
  - eauto.
  - constructor; [|rewrite <- Hlru; apply Hwf].
    intros Hin%Hal. lia.
  - intros x. rewrite length_app, elem_of_cons. simpl.
    intros [->|Hx%Hal]; lia.
  - intros k' x. rewrite lookup_insert, elem_of_cons.
    destruct (decide (k = k')) as [<-|Hkk].
    + split.
      * intros [= <-]. split; [by left|]. by rewrite lookup_app_r, Nat.sub_diag.
      * intros [[->|Hx] Hkx]; [done|]. exfalso.
        rewrite lookup_app_l in Hkx by by apply Hal.
        assert (cmap c !! k = Some x) as Hmx.
        { apply (wf_map c Hwf). by rewrite Hlru. }
        congruence.
    + rewrite <- Hcm, (wf_map c Hwf), Hlru. split.
      * intros [Hx Hkx]. split; [by right|].
        by rewrite lookup_app_l by by apply Hal.
      * intros [[->|Hx] Hkx].
        -- rewrite lookup_app_r, Nat.sub_diag in Hkx by done. simpl in Hkx.
           congruence.
        -- split; [done|]. by rewrite lookup_app_l in Hkx by by apply Hal.
  - intros Hexp. destruct (wf_queue c Hwf Hexp) as [Hq Hs].
    unfold queue, lru in *. simpl. rewrite bool_decide_eq_true_2 by done.
    simpl. split.
    + intros x. rewrite elem_of_app, !elem_of_cons, elem_of_nil, Hq.
      rewrite Hl. simpl. intuition congruence.
    + apply StronglySorted_app; repeat split; [|done|repeat constructor].
      intros x1 x2 Hx1 ->%list_elem_of_singleton. apply Hq in Hx1.
      rewrite Hl in Hx1. simpl in Hx1. by apply Hal.
Qed.

Lemma wf_removeOldest c :
  wf c → ∃ c', removeOldest c = Some c' ∧ wf c'.
Proof.
  intros Hwf. unfold removeOldest. destruct (cache c) as [m|] eqn:Hm; [|eauto].
  destruct (wf_ptr c Hwf) as [l Hl]; [by rewrite Hm|]. rewrite Hl. simpl.
  unfold GoList.Back. destruct (last l) as [e|] eqn:Hlast; [|eauto].
  destruct (wf_removeElement c e Hwf) as (c' & k & Hr & Hwf' & _).
  { rewrite (lru_Some c l Hl). by apply last_Some_elem_of. }
  eauto.
Qed.

Lemma wf_Set now k v c : wf c → ∃ c', Set_ now k v c = Some c' ∧ wf c'.
Proof.
  intros Hwf0. unfold Set_.
  destruct (lazyInit_ptr c Hwf0) as (m & l & Hm & Hl).
  apply wf_lazyInit in Hwf0 as Hwf. rewrite Hm. simpl.
  destruct (m !! k) as [e|] eqn:Hk.
  - assert (e ∈ lru (lazyInit c)) as Hin.
    { apply (wf_map _ Hwf k). by rewrite (cmap_Some _ m Hm). }
    pose proof (wf_alloc _ Hwf e Hin) as [en Hen]%lookup_lt_is_Some.
    destruct (wf_SetPresent (lazyInit c) e l en v now Hwf Hl Hen) as [-> ?].
    eauto.
  - unfold SetAbsent. rewrite Hl. simpl.
    pose proof (wf_insertNew now k v m l _ Hwf Hm Hl Hk) as Hwf3.
    destruct (_ && _); [by apply wf_removeOldest|eauto].
Qed.

Lemma wf_Get k c : wf c → ∃ c' r, Get k c = Some (c', r) ∧ wf c'.
Proof.
  intros Hwf. unfold Get. destruct (cache c) as [m|] eqn:Hm; [|eauto].
  destruct (m !! k) as [e|] eqn:Hk; [|eauto].
  destruct (wf_ptr c Hwf) as [l Hl]; [by rewrite Hm|]. rewrite Hl. simpl.
  assert (e ∈ lru c) as Hin.
  { apply (wf_map _ Hwf k). by rewrite (cmap_Some _ m Hm). }
  pose proof (wf_alloc _ Hwf e Hin) as [en Hen]%lookup_lt_is_Some.
  rewrite Hen. simpl. eexists _, _. split; [done|]. by apply wf_MoveToFront.
Qed.

Lemma wf_Delete k c : wf c → ∃ c', Delete k c = Some c' ∧ wf c'.
Proof.
  intros Hwf. unfold Delete. destruct (cache c) as [m|] eqn:Hm; [|eauto].
  destruct (m !! k) as [e|] eqn:Hk; [|eauto].
  destruct (wf_removeElement c e Hwf) as (c' & k' & Hr & Hwf' & _); [|eauto].
  apply (wf_map _ Hwf k). by rewrite (cmap_Some _ m Hm).
Qed.

(** The sweeper, when nothing runs between its two critical sections. *)
Lemma wf_sweep c e exp :
  wf c → 0 < expiration c → sweepPeek c = Some (Head e exp) →
  ∃ c', removeElement e c = Some c' ∧ wf c'.
Proof.
  intros Hwf Hexp Hpeek. unfold sweepPeek in Hpeek.
  destruct (slice (ttlIndex c)) as [|e' q] eqn:Hq; [done|].
  destruct (store c !! e'); simpl in Hpeek; [|done].
  injection Hpeek as -> _.
  destruct (wf_removeElement c e Hwf) as (c' & k' & Hr & Hwf' & _); [|eauto].
  apply (wf_queue c Hwf Hexp). unfold queue. rewrite Hq. left.
Qed.

(** [Get] on a key that the map sends to [e]. *)
Lemma Get_hit k c e en :
  wf c → cmap c !! k = Some e → store c !! e = Some en →
  Get k c = Some (with_lruIndex (GoList.MoveToFront e (lru c)) c, (value en, true)).
Proof.
  intros Hwf Hk Hen. unfold Get. unfold cmap in Hk.
  destruct (cache c) as [m|] eqn:Hm; simpl in Hk; [|by rewrite lookup_empty in Hk].
  rewrite Hk. destruct (wf_ptr c Hwf) as [l Hl]; [by rewrite Hm|].
  rewrite (lru_Some c l Hl), Hl. simpl. by rewrite Hen.
Qed.

(** [Set] on a key that the map sends to [e]: lines 80-89. *)
Lemma Set_present now k v c e :
  wf c → cmap c !! k = Some e →
  ∃ en, store c !! e = Some en ∧ key en = k ∧ e ∈ lru c ∧
    is_Some (lruIndex c) ∧
    Set_ now k v c =
      Some (with_store (<[e := Entry k v now]> (store c))
              (with_lruIndex (e :: GoList.remove1 e (lru c)) c)) ∧
    wf (with_store (<[e := Entry k v now]> (store c))
          (with_lruIndex (e :: GoList.remove1 e (lru c)) c)).
Proof.
  intros Hwf Hk. pose proof Hk as Hk0. unfold cmap in Hk.
  destruct (cache c) as [m|] eqn:Hm; simpl in Hk; [|by rewrite lookup_empty in Hk].
  destruct (wf_ptr c Hwf) as [l Hl]; [by rewrite Hm|].
  apply (wf_map c Hwf) in Hk0 as [Hin Hkey].
  unfold key_of in Hkey. destruct (store c !! e) as [en|] eqn:Hen; [|done].
  simpl in Hkey. injection Hkey as Hkey. exists en.
  destruct (wf_SetPresent c e l en v now Hwf Hl Hen) as [HS Hwf'].
  rewrite (lru_Some c l Hl) in *.
  unfold GoList.MoveToFront in HS, Hwf'.
  rewrite bool_decide_eq_true_2 in HS, Hwf' by done. rewrite Hkey in HS, Hwf'.
  split_and!; try done; eauto.
  assert (lazyInit c = c) as Hi by (unfold lazyInit; by rewrite Hm).
  unfold Set_. rewrite Hi, Hm. simpl. by rewrite Hk.
Qed.

(** [Set] on an absent key starts from the lazily initialised cache, whose
    list and map are those of [c] read through nil. *)
Lemma Set_absent now k v c :
  wf c → absent k c →
  lruIndex (lazyInit c) = Some (lru c) ∧ cache (lazyInit c) = Some (cmap c) ∧
  store (lazyInit c) = store c ∧ maxEntries (lazyInit c) = maxEntries c ∧
  expiration (lazyInit c) = expiration c ∧
  Set_ now k v c = SetAbsent now k v (cmap c) (lazyInit c).
Proof.
  intros Hwf Hk. unfold absent in Hk. unfold Set_.
  unfold lazyInit, cmap, lru in *. destruct (cache c) as [m|] eqn:Hm; simpl in *.
  - destruct (wf_ptr c Hwf) as [l Hl]; [by rewrite Hm|].
    rewrite Hl, Hm. simpl. by rewrite Hk.
  - pose proof (wf_nil_map c Hwf Hm) as Hnil. unfold lru in Hnil.
    rewrite Hnil. by rewrite lookup_empty.
Qed.

(** [Set] on an absent key when the capacity is exceeded: the element at the
    back of the recency list is unlinked and its key leaves the map. *)
Lemma Set_absent_evict now k v c :
  wf c → absent k c → 0 < maxEntries c →
  maxEntries c < GoList.Len (length (store c) :: lru c) →
  ∃ c' b kb,
    Set_ now k v c = Some c' ∧ wf c' ∧
    GoList.Back (lru c) = Some b ∧ key_of c b = Some kb ∧ kb ≠ k ∧
    lru c' = length (store c) :: removelast (lru c) ∧
    cmap c' = delete kb (<[k := length (store c)]> (cmap c)) ∧
    store c' = store c ++ [Entry k v now] ∧
    maxEntries c' = maxEntries c ∧ is_Some (cache c').
Proof.
  intros Hwf Hk Hpos Hfull.
  destruct (Set_absent now k v c Hwf Hk) as (Hl & Hm & Hst & Hmx & Hex & ->).
  rewrite (SetAbsent_eq now k v (cmap c) (lru c)) by done.
  rewrite Hmx, Hst.
  rewrite andb_true_intro;
    [|split; apply bool_decide_eq_true_2; [lia|done]].
  pose proof (wf_insertNew now k v (cmap c) (lru c) (lazyInit c)
                (wf_lazyInit c Hwf) Hm Hl Hk) as Hwf3.
  set (c3 := insertNew now k v (cmap c) (lru c) (lazyInit c)) in *.
  assert (lru c3 = length (store c) :: lru c ∧
          cmap c3 = <[k := length (store c)]> (cmap c) ∧
          store c3 = store c ++ [Entry k v now] ∧
          maxEntries c3 = maxEntries c ∧ is_Some (cache c3) ∧
          lruIndex c3 = Some (length (store c) :: lru c)) as (Hl3 & Hm3 & Hs3 & Hx3 & Hp3 & Hi3).
  { unfold c3. rewrite insertNew_eq, Hst, Hmx. unfold lru at 1, cmap at 1.
    simpl. eauto 10. }
  destruct (lru c) as [|x l'] eqn:Hlru.
  { unfold GoList.Len in Hfull. simpl in Hfull. lia. }
  destruct (last (x :: l')) as [b|] eqn:Hb; [|by apply last_None in Hb].
  assert (b ∈ lru c) as Hbin by (rewrite Hlru; by apply last_Some_elem_of).
  assert (last (lru c3) = Some b) as Hb3.
  { rewrite Hl3. exact Hb. }
  destruct (wf_removeElement c3 b Hwf3) as (c' & kb & Hr & Hwf' & Hkb & Hl' & Hm' & Hs' & Hx' & _ & Hp').
  { rewrite Hl3. right. by rewrite <- Hlru. }
  assert (b ≠ length (store c)) as Hbne.
  { pose proof (wf_alloc c Hwf b Hbin). lia. }
  assert (key_of c b = Some kb) as Hkb0.
  { unfold key_of in *. rewrite Hs3 in Hkb.
    by rewrite lookup_app_l in Hkb by by apply (wf_alloc c Hwf). }
  exists c', b, kb. split.
  { unfold removeOldest. destruct Hp3 as [m3 Hp3]. rewrite Hp3, Hi3. simpl.
    unfold GoList.Back. rewrite Hl3 in Hb3. by rewrite Hb3. }
  split; [done|]. split; [done|]. split; [done|]. split.
  { intros ->. assert (cmap c !! k = Some b) as Hc.
    { by apply (wf_map c Hwf). }
    unfold absent in Hk. congruence. }
  rewrite Hl', Hm', Hs', Hx', Hl3, Hm3, Hs3, Hx3. repeat split; [|by apply Hp'].
  rewrite remove1_cons_ne by done. f_equal.
  apply remove1_last; [|done]. rewrite <- Hlru. apply Hwf.
Qed.

(** [Set] on an absent key within the capacity. *)
Lemma Set_absent_fits now k v c :
  wf c → absent k c →
  maxEntries c = 0 ∨ GoList.Len (length (store c) :: lru c) ≤ maxEntries c →
  Set_ now k v c = Some (insertNew now k v (cmap c) (lru c) (lazyInit c)) ∧
  wf (insertNew now k v (cmap c) (lru c) (lazyInit c)).
Proof.
  intros Hwf Hk Hfit.
  destruct (Set_absent now k v c Hwf Hk) as (Hl & Hm & Hst & Hmx & Hex & ->).
  rewrite (SetAbsent_eq now k v (cmap c) (lru c)) by done.
  rewrite Hmx, Hst. split; [|by apply wf_insertNew; [apply wf_lazyInit|..]].
  destruct (bool_decide (maxEntries c ≠ 0)) eqn:H1; [|done].
  destruct (bool_decide (maxEntries c < _)) eqn:H2; [|done].
  apply bool_decide_eq_true in H1, H2. lia.
Qed.

End operations.

(** ** Schedules *)

Section schedules.
Context {V : Type}.
Implicit Types (c : @Cache V) (e : elem) (k : string) (v : @iface V)
  (s : @state V) (evs : list (@event V)).

Lemma wf_Len c : wf c → is_Some (Len c).
Proof.
  intros Hwf. unfold Len. destruct (cache c) eqn:Hm; [|eauto].
  destruct (wf_ptr c Hwf) as [l ->]; [by rewrite Hm|]. simpl. eauto.
Qed.

(** One whole turn of the sweeper, run without interruption. *)
Lemma wf_turn c now1 now2 :
  wf c → 0 < expiration c →
  ∃ p c', step SweepPeek (c, Idle) = Some (c, Peeked p) ∧
          step (SweepAct now1 now2) (c, Peeked p) = Some (c', Idle) ∧
          wf c' ∧ expiration c' = expiration c.
Proof.
  intros Hwf Hexp. simpl. unfold sweepPeek.
  destruct (slice (ttlIndex c)) as [|e q] eqn:Hq.
  { simpl. eexists _, c. split; [done|]. simpl. eauto. }
  assert (e ∈ lru c) as Hin.
  { apply (wf_queue c Hwf Hexp). unfold queue. rewrite Hq. left. }
  pose proof (wf_alloc c Hwf e Hin) as [en Hen]%lookup_lt_is_Some.
  rewrite Hen. simpl.
  exists (Head e (GoTime.Add (timestamp en) (expiration c))).
  destruct (GoTime.After now1 (GoTime.Add (timestamp en) (expiration c)))
    eqn:Hafter.
  - destruct (wf_removeElement c e Hwf Hin) as (c' & k & Hr & Hwf' & _ & _ & _ & _ & _ & Hex & _).
    exists c'. split; [done|]. unfold sweepDecide. rewrite Hafter, Hr.
    simpl. eauto.
  - exists c. split; [done|]. unfold sweepDecide. rewrite Hafter. eauto.
Qed.

(** Calls and uninterrupted turns of the sweeper keep the invariant, and
    none of them panics. *)
Lemma wf_run_atomic evs s :
  wf s.1 → sweeper_at_rest s → atomic evs = true →
  ∃ s', run evs s = Some s' ∧ wf s'.1 ∧ sweeper_at_rest s'.
Proof.
  remember (length evs) as n eqn:Hn. revert evs s Hn.
  induction n as [n IH] using lt_wf_ind. intros evs [c sw] Hn Hwf Hsw Hev.
  simpl in Hwf. destruct evs as [|ev evs]; [simpl; eauto|].
  assert (∀ c', wf c' → expiration c' = expiration c → atomic evs = true →
            ∃ s', run evs (c', sw) = Some s' ∧ wf s'.1 ∧ sweeper_at_rest s')
    as Hnext.
  { intros c' Hwf' Hex' Hev'. apply (IH (length evs)); simpl in *; try done; [lia|].
    destruct Hsw as [?|[? ?]]; [by left|right]. simpl in *. split; [done|lia]. }
  destruct ev as [now k v|k|k| | | |now1 now2]; simpl in Hev.
  - destruct (wf_Set now k v c Hwf) as (c' & HS & Hwf').
    destruct (Set_conf now k v c c' HS) as [_ Hex].
    simpl. rewrite HS. simpl. by apply Hnext.
  - destruct (wf_Get k c Hwf) as (c' & r & HG & Hwf').
    destruct (Get_conf k c c' r HG) as [_ Hex].
    simpl. rewrite HG. simpl. by apply Hnext.
  - destruct (wf_Delete k c Hwf) as (c' & HD & Hwf').
    destruct (Delete_conf k c c' HD) as [_ Hex].
    simpl. rewrite HD. simpl. by apply Hnext.
  - destruct (wf_Len c Hwf) as [n' HL]. simpl. rewrite HL. simpl.
    by apply Hnext.
  - simpl. apply Hnext; [apply wf_Flush|done..].
  - destruct evs as [|ev' evs']; [done|].
    destruct ev' as [| | | | | |now1 now2]; try done.
    destruct Hsw as [Hsw|[Hsw Hexp]]; simpl in Hsw; subst sw; [|simpl in Hexp].
    + simpl. apply (IH (length evs')); simpl in *; [lia|done|done|by left|done].
    + destruct (wf_turn c now1 now2 Hwf Hexp) as (p & c' & H1 & H2 & Hwf' & Hex).
      change (run (SweepPeek :: SweepAct now1 now2 :: evs') (c, Idle))
        with (step SweepPeek (c, Idle) ≫= λ s1,
              step (SweepAct now1 now2) s1 ≫= run evs').
      rewrite H1. simpl option_bind. cbn [mbind option_bind].
      rewrite H2. cbn [mbind option_bind].
      apply (IH (length evs')); simpl in *; [lia|done|done| |done].
      right. simpl. split; [done|lia].
  - done.
Qed.

End schedules.

Lemma wf_after C expire (evs : list (@event Z)) :
  atomic evs = true → wf (after C expire evs).
Proof.
  intros Hev. unfold after.
  destruct (wf_run_atomic evs (init C expire)) as (s' & -> & Hwf & _);
    [apply wf_New| |done..].
  unfold sweeper_at_rest, init. simpl. case_bool_decide; [by right|by left].
Qed.


(** ** The capacity bound under every interleaving *)

Section capacity.
Context {V : Type}.
Implicit Types (c : @Cache V) (e : elem) (k : string) (v : @iface V)
  (s : @state V) (evs : list (@event V)) (l : list elem)
  (m : gmap string elem).

Lemma sound_New (C expire : Z) : sound (New (V:=V) C expire).
Proof.
  split; unfold cmap, queue; simpl; eauto.
  - intros k e. by rewrite lookup_empty.
  - intros e. case_bool_decide; simpl; by intros ?%elem_of_nil.
Qed.

Lemma sound_Flush c : sound c → sound (Flush c) ∧ lru (Flush c) = [].
Proof.
  intros Hs. split; [|done]. split; unfold cmap; simpl; eauto.
  - intros k e. by rewrite lookup_empty.
  - unfold queue, Flush, fresh_ttlIndex. simpl. intros e. case_bool_decide; simpl.
    + by intros ?%elem_of_nil.
    + apply (sd_queue c Hs).
Qed.

Lemma sound_removeElement e c :
  sound c →
  ∃ c', removeElement e c = Some c' ∧ sound c' ∧
        lru c' = GoList.remove1 e (lru c) ∧ maxEntries c' = maxEntries c.
Proof.
  intros Hs. destruct (sd_list c Hs) as [l Hl].
  rewrite (removeElement_eq c e l Hl), (lru_Some c l Hl).
  eexists. split; [done|]. split; [|done].
  destruct (sd_map c Hs) as [m Hm].
  split; unfold cmap, queue; simpl.
  - rewrite Hm. destruct (store c !! e); simpl; eauto.
  - eauto.
  - intros k x Hx. apply (sd_alloc c Hs k). unfold cmap. rewrite Hm in *.
    destruct (store c !! e); simpl in *; [|done].
    by apply lookup_delete_Some in Hx as [_ Hx].
  - intros x Hx. apply (sd_queue c Hs). unfold queue.
    case_bool_decide; [|done]. destruct (ttlIndex c); simpl in *; [|done].
    by apply remove1_subset in Hx.
Qed.

Lemma sound_removeOldest c :
  sound c →
  ∃ c', removeOldest c = Some c' ∧ sound c' ∧ maxEntries c' = maxEntries c ∧
    match GoList.Back (lru c) with
    | Some b => lru c' = GoList.remove1 b (lru c)
    | None => lru c' = lru c
    end.
Proof.
  intros Hs. unfold removeOldest.
  destruct (sd_map c Hs) as [m ->]. destruct (sd_list c Hs) as [l Hl].
  rewrite Hl, (lru_Some c l Hl). simpl. destruct (GoList.Back l) as [b|].
  - destruct (sound_removeElement b c Hs) as (c' & -> & Hs' & Hl' & Hm').
    rewrite (lru_Some c l Hl) in Hl'. eauto.
  - exists c. by rewrite (lru_Some c l Hl).
Qed.

Lemma sound_insertNew now k v m l c :
  sound c → cache c = Some m → lruIndex c = Some l →
  sound (insertNew now k v m l c).
Proof.
  intros Hs Hm Hl. rewrite insertNew_eq.
  split; unfold cmap, queue; simpl; eauto.
  - intros k' x. rewrite length_app. simpl.
    destruct (decide (k = k')) as [->|Hne].
    + rewrite lookup_insert_eq. intros [= <-]. lia.
    + rewrite lookup_insert_ne by done. intros Hx.
      pose proof (sd_alloc c Hs k' x) as Hb. unfold cmap in Hb.
      rewrite Hm in Hb. specialize (Hb Hx). lia.
  - intros x. rewrite length_app. simpl. case_bool_decide; simpl.
    + rewrite elem_of_app, list_elem_of_singleton. intros [Hx| ->]; [|lia].
      pose proof (sd_queue c Hs x Hx). lia.
    + intros Hx. pose proof (sd_queue c Hs x Hx). lia.
Qed.

Lemma sound_MoveToFront e l c :
  sound c → sound (with_lruIndex (GoList.MoveToFront e l) c).
Proof. intros [? ? ? ?]. split; simpl; eauto. Qed.

(** [Set] in a sound cache of capacity [C > 0] returns, keeps the bound, and
    unlinks exactly the back element when a new key would exceed [C]. *)
Lemma bounded_Set C now k v c :
  0 < C → bounded C c →
  ∃ c', Set_ now k v c = Some c' ∧ bounded C c' ∧
    (absent k c → C < GoList.Len (lru c) + 1 →
     ∃ b, GoList.Back (length (store c) :: lru c) = Some b ∧
          lru c' = GoList.remove1 b (length (store c) :: lru c) ∧
          GoList.Len (lru c') = GoList.Len (lru c)).
Proof.
  intros HC (Hcap & Hs & Hlen).
  destruct (sd_map c Hs) as [m Hm]. destruct (sd_list c Hs) as [l Hl].
  assert (lazyInit c = c) as Hi by (unfold lazyInit; by rewrite Hm).
  pose proof (lru_Some c l Hl) as Hlru. pose proof (cmap_Some c m Hm) as Hcm.
  unfold Set_, absent. rewrite Hi, Hm, Hcm, Hlru in *. simpl.
  destruct (m !! k) as [e|] eqn:Hk.
  - pose proof (sd_alloc c Hs k e) as Hal. rewrite Hcm in Hal.
    apply Hal, lookup_lt_is_Some in Hk as [en Hen].
    unfold SetPresent. rewrite Hl. simpl. rewrite Hen. simpl.
    eexists. split; [done|]. split; [|done].
    split; [done|]. split.
    + destruct Hs as [? ? Ha Hq]. split; simpl; eauto.
      * intros k' x Hx. rewrite length_insert. by eapply Ha.
      * intros x Hx. rewrite length_insert. by eapply Hq.
    + unfold lru, GoList.Len in *. simpl. rewrite MoveToFront_length. done.
  - rewrite (SetAbsent_eq now k v m l c Hl).
    pose proof (sound_insertNew now k v m l c Hs Hm Hl) as Hs3.
    assert (lru (insertNew now k v m l c) = length (store c) :: l ∧
            maxEntries (insertNew now k v m l c) = C) as [Hl3 Hm3].
    { by rewrite insertNew_eq. }
    destruct (bool_decide (maxEntries c ≠ 0) && _) eqn:Hev.
    + apply andb_true_iff in Hev as [_ Hev%bool_decide_eq_true].
      destruct (sound_removeOldest _ Hs3) as (c' & -> & Hs' & Hm' & Hb).
      rewrite Hl3 in Hb.
      destruct (GoList.Back (length (store c) :: l)) as [b|] eqn:Hback.
      2: { unfold GoList.Back in Hback. by apply last_None in Hback. }
      assert (GoList.Len (lru c') = GoList.Len l) as Hlen'.
      { pose proof (remove1_length b (length (store c) :: l)) as Hr.
        assert (b ∈ length (store c) :: l) as Hbin
          by by apply last_Some_elem_of.
        specialize (Hr Hbin).
        change (length (length (store c) :: l)) with (S (length l)) in Hr.
        rewrite Hb. unfold GoList.Len. lia. }
      exists c'. split; [done|]. split.
      * split; [congruence|]. split; [done|]. by rewrite Hlen'.
      * intros _ _. eauto.
    + eexists. split; [done|].
      apply andb_false_iff in Hev as [Hev|Hev]; apply bool_decide_eq_false in Hev.
      * exfalso. apply Hev. lia.
      * unfold GoList.Len in *. simpl in Hev. split.
        -- split; [done|]. split; [done|]. rewrite Hl3.
           unfold GoList.Len. simpl length. lia.
        -- intros _ ?. lia.
Qed.

(** Every event keeps the invariant, whatever the sweeper holds. *)
Lemma bounded_step C ev s :
  0 < C → bounded C s.1 → ∃ s', step ev s = Some s' ∧ bounded C s'.1.
Proof.
  intros HC Hb. destruct s as [c sw]. simpl in Hb.
  destruct ev as [now k v|k|k| | | |now1 now2]; simpl.
  - destruct (bounded_Set C now k v c HC Hb) as (c' & -> & Hb' & _). simpl. eauto.
  - pose proof Hb as (Hcap & Hs & Hlen). unfold Get.
    destruct (sd_map c Hs) as [m Hm]. destruct (sd_list c Hs) as [l Hl].
    rewrite Hm. destruct (m !! k) as [e|] eqn:Hk; [|simpl; by eexists].
    pose proof (sd_alloc c Hs k e) as Hal. rewrite (cmap_Some c m Hm) in Hal.
    apply Hal, lookup_lt_is_Some in Hk as [en Hen].
    rewrite Hl. simpl. rewrite Hen. simpl. eexists. split; [done|]. simpl.
    split; [done|]. split; [by apply sound_MoveToFront|].
    unfold lru, GoList.Len in *. simpl. rewrite MoveToFront_length.
    by rewrite Hl in Hlen.
  - pose proof Hb as (Hcap & Hs & Hlen). unfold Delete.
    destruct (sd_map c Hs) as [m Hm]. rewrite Hm.
    destruct (m !! k) as [e|]; [|simpl; by eexists].
    destruct (sound_removeElement e c Hs) as (c' & -> & Hs' & Hl' & Hm').
    simpl. eexists. split; [done|]. simpl. split; [congruence|]. split; [done|].
    rewrite Hl'. unfold GoList.Len in *.
    pose proof (remove1_length_le e (lru c)). lia.
  - pose proof Hb as (Hcap & Hs & Hlen). unfold Len.
    destruct (sd_map c Hs) as [m ->]. destruct (sd_list c Hs) as [l ->].
    simpl. by eexists.
  - pose proof Hb as (Hcap & Hs & Hlen).
    destruct (sound_Flush c Hs) as [Hs' Hl']. eexists. split; [done|]. simpl.
    split; [done|]. split; [done|]. rewrite Hl'. unfold GoList.Len. simpl. lia.
  - destruct sw as [| |p]; [by eexists| |]; [|by eexists].
    unfold sweepPeek. pose proof Hb as (Hcap & Hs & Hlen).
    destruct (slice (ttlIndex c)) as [|e q] eqn:Hq; [simpl; by eexists|].
    pose proof (sd_queue c Hs e) as Hal. unfold queue in Hal. rewrite Hq in Hal.
    assert (e < length (store c))%nat as [en Hen]%lookup_lt_is_Some
      by (apply Hal; left).
    rewrite Hen. simpl. by eexists.
  - destruct sw as [| |p]; [by eexists|by eexists|].
    destruct (sweepDecide _ _ _ _) as [d|e]; [by eexists|].
    pose proof Hb as (Hcap & Hs & Hlen).
    destruct (sound_removeElement e c Hs) as (c' & -> & Hs' & Hl' & Hm').
    simpl. eexists. split; [done|]. simpl. split; [congruence|]. split; [done|].
    rewrite Hl'. unfold GoList.Len in *.
    pose proof (remove1_length_le e (lru c)). lia.
Qed.

Lemma bounded_run C evs s :
  0 < C → bounded C s.1 → ∃ s', run evs s = Some s' ∧ bounded C s'.1.
Proof.
  intros HC. revert s. induction evs as [|ev evs IH]; intros s Hb; simpl.
  - eauto.
  - destruct (bounded_step C ev s HC Hb) as (s1 & -> & Hb1). simpl. by apply IH.
Qed.

Lemma bounded_init C expire : 0 < C → bounded C (init (V:=V) C expire).1.
Proof.
  intros HC. simpl. split; [done|]. split; [apply sound_New|].
  unfold GoList.Len. simpl. lia.
Qed.

End capacity.

(** * The claims *)

Section claims.
Context {V : Type}.
Implicit Types (c : @Cache V) (e : elem) (k : string) (v : @iface V)
  (l q : list elem) (m : gmap string elem).

(** C8: for a key absent from the cache, [Get] returns the zero value and
    false, without a panic and without changing any state of the cache, and
    [Delete] returns with the cache unchanged. *)
Theorem absent_Get_Delete c k :
  absent k c →
  Get k c = Some (c, (None, false)) ∧ Delete k c = Some c.
Proof.
  unfold absent, cmap, Get, Delete. intros Hk.
  destruct (cache c) as [m|]; simpl in Hk; [|done]. by rewrite Hk.
Qed.

(** C9: after [Flush], [Len] is 0 and [Get] misses on every key, whatever
    the cache held before. *)
Theorem Flush_empties c :
  Len (Flush c) = Some 0 ∧
  ∀ k, Get k (Flush c) = Some (Flush c, (None, false)).
Proof.
  split; [done|]. intros k. unfold Get. simpl. by rewrite lookup_empty.
Qed.

(** C10: on a cache whose map is nil, [Get] misses, [Delete] does nothing and
    [Len] is 0, none of them panics; [Set] first makes the map, the recency
    list and, with expiration on, the expiry slice, then inserts into them,
    and does not panic either. *)
Theorem nil_map_total c k v now :
  cache c = None →
  Get k c = Some (c, (None, false)) ∧
  Delete k c = Some c ∧
  Len c = Some 0 ∧
  lazyInit c =
    mkCache (maxEntries c) (Some [])
      (if bool_decide (0 < expiration c) then Some [] else ttlIndex c)
      (Some ∅) (expiration c) (store c) ∧
  Set_ now k v c = SetAbsent now k v ∅ (lazyInit c) ∧
  (∃ c', Set_ now k v c = Some c' ∧ is_Some (cache c') ∧
         is_Some (lruIndex c') ∧ (0 < expiration c → is_Some (ttlIndex c'))) ∧
  (0 ≤ maxEntries c →
   Set_ now k v c = Some (insertNew now k v ∅ [] (lazyInit c)) ∧
   cache (insertNew now k v ∅ [] (lazyInit c))
     = Some {[ k := length (store c) ]} ∧
   lruIndex (insertNew now k v ∅ [] (lazyInit c)) = Some [length (store c)] ∧
   (0 < expiration c →
    ttlIndex (insertNew now k v ∅ [] (lazyInit c))
      = Some [length (store c)])).
Proof.
  intros Hnil.
  assert (lazyInit c =
    mkCache (maxEntries c) (Some [])
      (if bool_decide (0 < expiration c) then Some [] else ttlIndex c)
      (Some ∅) (expiration c) (store c)) as Hinit.
  { unfold lazyInit. by rewrite Hnil. }
  assert (Set_ now k v c = SetAbsent now k v ∅ (lazyInit c)) as HSet.
  { unfold Set_. rewrite Hinit. simpl. by rewrite lookup_empty. }
  unfold Get, Delete, Len. rewrite Hnil. do 5 (split; [done|]).
  rewrite HSet, (SetAbsent_eq now k v ∅ [] (lazyInit c)) by by rewrite Hinit.
  rewrite !insertNew_eq, Hinit. cbn [maxEntries expiration store ttlIndex].
  destruct (_ && _) eqn:Hev.
  - split.
    + unfold removeOldest. cbn [cache lruIndex mbind option_bind GoList.Back last].
      erewrite removeElement_eq by done. simpl.
      eexists. split; [done|]. simpl. rewrite decide_True by done.
      rewrite lookup_app_r, Nat.sub_diag by done. simpl.
      repeat split; eauto. intros Hexp.
      rewrite !(bool_decide_eq_true_2 _ Hexp). simpl. eauto.
    + intros Hmx. exfalso.
      apply andb_true_iff in Hev as [H1%bool_decide_eq_true H2%bool_decide_eq_true].
      unfold GoList.Len in H2. simpl in H2. lia.
  - split.
    + eexists. split; [done|]. simpl. repeat split; eauto.
      intros Hexp. rewrite !(bool_decide_eq_true_2 _ Hexp). eauto.
    + intros _. repeat split; try done.
      intros Hexp. by rewrite !(bool_decide_eq_true_2 _ Hexp).
Qed.

(** C6: [Set] on a key that is already present rewrites the value and the
    timestamp of its entry in place and moves its element to the front of the
    recency list; the number of entries, the members of the list and the
    order of the others, the map, the expiry slice and every other entry stay
    as they were, whatever the capacity is, and nothing is allocated. *)
Theorem Set_present_in_place now k v c e :
  wf c → cmap c !! k = Some e →
  ∃ c' l,
    Set_ now k v c = Some c' ∧
    store c' !! e = Some (Entry k v now) ∧
    lruIndex c = Some l ∧ e ∈ l ∧
    lruIndex c' = Some (e :: GoList.remove1 e l) ∧
    Len c' = Len c ∧
    (∀ x, x ∈ lru c' ↔ x ∈ lru c) ∧
    cache c' = cache c ∧ ttlIndex c' = ttlIndex c ∧
    maxEntries c' = maxEntries c ∧ expiration c' = expiration c ∧
    length (store c') = length (store c) ∧
    (∀ x, x ≠ e → store c' !! x = store c !! x).
Proof.
  intros Hwf Hk.
  destruct (Set_present now k v c e Hwf Hk) as (en & Hen & Hkey & Hin & [l Hl] & HS & Hwf').
  rewrite (lru_Some c l Hl) in *. eexists _, l. split; [exact HS|].
  assert (is_Some (cache c)) as [m Hm].
  { unfold cmap in Hk. destruct (cache c); [eauto|]. simpl in Hk.
    by rewrite lookup_empty in Hk. }
  unfold Len, lru. simpl. rewrite Hm, Hl. simpl. split_and!; try done.
  - apply list_lookup_insert_eq. by eapply lookup_lt_Some.
  - unfold GoList.Len. simpl. do 2 f_equal.
    pose proof (remove1_length e l Hin). lia.
  - intros x. destruct (decide (x = e)) as [->|Hne].
    + rewrite elem_of_cons. intuition congruence.
    + rewrite elem_of_cons, remove1_elem_of_ne by done. intuition congruence.
  - by rewrite length_insert.
  - intros x Hne. by rewrite list_lookup_insert_ne.
Qed.

(** Where the structural invariant [wf] holds and the capacity is not
    negative, [Set k v] followed at once by [Get k] returns [(v, true)]. *)
Theorem Set_then_Get now k v c :
  wf c → 0 ≤ maxEntries c →
  ∃ c' c'', Set_ now k v c = Some c' ∧ Get k c' = Some (c'', (v, true)).
Proof.
  intros Hwf Hcap. destruct (cmap c !! k) as [e|] eqn:Hk.
  - destruct (Set_present now k v c e Hwf Hk) as (en & Hen & Hkey & Hin & _ & HS & Hwf').
    eexists _, _. split; [exact HS|].
    apply (Get_hit k _ e (Entry k v now) Hwf'); [done|].
    simpl. apply list_lookup_insert_eq. by eapply lookup_lt_Some.
  - destruct (decide (maxEntries c = 0
                      ∨ GoList.Len (length (store c) :: lru c) ≤ maxEntries c))
      as [Hfit|Hfull].
    + destruct (Set_absent_fits now k v c Hwf Hk Hfit) as [HS Hwf'].
      destruct (Set_absent now k v c Hwf Hk) as (_ & _ & Hst & _).
      eexists _, _. split; [exact HS|].
      apply (Get_hit k _ (length (store c)) (Entry k v now) Hwf').
      * rewrite insertNew_eq. unfold cmap. simpl. rewrite Hst.
        apply lookup_insert_eq.
      * rewrite insertNew_eq. simpl. rewrite Hst.
        by rewrite lookup_app_r, Nat.sub_diag.
    + destruct (Set_absent_evict now k v c Hwf Hk)
        as (c' & b & kb & HS & Hwf' & _ & _ & Hne & _ & Hm' & Hs' & _); [lia..|].
      eexists c', _. split; [exact HS|].
      apply (Get_hit k _ (length (store c)) (Entry k v now) Hwf').
      * rewrite Hm', lookup_delete_ne by done. apply lookup_insert_eq.
      * rewrite Hs'. by rewrite lookup_app_r, Nat.sub_diag.
Qed.

(** C2, amended: in a cache that satisfies the structural invariant [wf]
    (no element twice in the recency list, the map sends [k] to [e] exactly
    when [e] is linked and holds [k], and with expiration on the expiry slice
    holds the linked elements in the order of their insertion), when [Set] of
    a new key exceeds a capacity [C > 0], the element unlinked is the one at
    the back of the recency list, and its key leaves the map.  If a key [k]
    was read by [Get] just before and the cache holds at least one other
    entry, [k] is still there afterwards, and the entry that goes is the
    least recently used of the others. *)
Theorem eviction_takes_back now knew v c :
  wf c → 0 < maxEntries c → absent knew c →
  maxEntries c < GoList.Len (lru c) + 1 →
  (∃ c' b kb,
     Set_ now knew v c = Some c' ∧
     GoList.Back (lru c) = Some b ∧ key_of c b = Some kb ∧
     lru c' = length (store c) :: removelast (lru c) ∧
     cmap c' = delete kb (<[knew := length (store c)]> (cmap c)) ∧
     cmap c' !! kb = None) ∧
  (∀ k e,
     cmap c !! k = Some e → (∃ x, x ∈ lru c ∧ x ≠ e) →
     ∃ c1 c2 c3 en b kb,
       store c !! e = Some en ∧
       Get k c = Some (c1, (value en, true)) ∧
       lru c1 = e :: GoList.remove1 e (lru c) ∧
       Set_ now knew v c1 = Some c2 ∧
       GoList.Back (lru c1) = Some b ∧
       GoList.Back (GoList.remove1 e (lru c)) = Some b ∧
       key_of c b = Some kb ∧ kb ≠ k ∧
       lru c2 = length (store c) :: removelast (lru c1) ∧
       cmap c2 = delete kb (<[knew := length (store c)]> (cmap c)) ∧
       cmap c2 !! kb = None ∧ cmap c2 !! k = Some e ∧
       Get k c2 = Some (c3, (value en, true))).
Proof.
  intros Hwf Hpos Hnew Hfull. split.
  - destruct (Set_absent_evict now knew v c Hwf Hnew Hpos)
      as (c' & b & kb & HS & _ & Hb & Hkb & _ & Hl' & Hm' & _).
    { unfold GoList.Len in *. simpl. lia. }
    exists c', b, kb. split_and!; try done.
    rewrite Hm'. apply lookup_delete_eq.
  - intros k e Hk (x & Hx & Hxe).
    destruct (wf_key c x Hwf Hx) as (kx & _ & _).
    pose proof Hk as [Hin Hkey]%(wf_map c Hwf).
    unfold key_of in Hkey. destruct (store c !! e) as [en|] eqn:Hen; [|done].
    simpl in Hkey. injection Hkey as Hkey.
    destruct (lru_elem_ptr c e Hin) as [l Hl].
    pose proof (lru_Some c l Hl) as Hlru.
    pose proof (wf_MoveToFront c e l Hwf Hl) as Hwf1.
    set (c1 := with_lruIndex (GoList.MoveToFront e l) c) in *.
    assert (lru c1 = e :: GoList.remove1 e (lru c)) as Hl1.
    { unfold c1, lru at 1, GoList.MoveToFront. simpl.
      rewrite bool_decide_eq_true_2 by by rewrite <- Hlru. by rewrite Hlru. }
    assert (x ∈ GoList.remove1 e (lru c)) as Hx'.
    { by apply remove1_elem_of_ne. }
    destruct (last (GoList.remove1 e (lru c))) as [b|] eqn:Hb.
    2: { apply last_None in Hb. rewrite Hb in Hx'. by apply elem_of_nil in Hx'. }
    assert (GoList.Back (lru c1) = Some b) as Hb1.
    { unfold GoList.Back. by rewrite Hl1, last_cons, Hb. }
    destruct (Set_absent_evict now knew v c1 Hwf1)
      as (c2 & b' & kb & HS & Hwf2 & Hb' & Hkb & Hkne & Hl2 & Hm2 & Hs2 & _).
    { done. }
    { done. }
    { unfold GoList.Len in *. simpl. rewrite Hl1. simpl.
      pose proof (remove1_length e (lru c) Hin). lia. }
    rewrite Hb1 in Hb'. injection Hb' as <-.
    assert (b ∈ lru c ∧ b ≠ e) as [Hbin Hbe].
    { apply remove1_elem_of; [apply Hwf|]. by apply last_Some_elem_of. }
    assert (kb ≠ k) as Hkk.
    { intros ->. assert (cmap c !! k = Some b) as Hc by by apply (wf_map c Hwf).
      congruence. }
    assert (knew ≠ k) as Hnk.
    { intros ->. unfold absent in Hnew. congruence. }
    assert (cmap c2 !! k = Some e) as Hk2.
    { rewrite Hm2, lookup_delete_ne, lookup_insert_ne by done. exact Hk. }
    eexists c1, c2, _, en, b, kb. split_and!; try done.
    + unfold c1. rewrite <- Hlru. by apply Get_hit.
    + rewrite Hm2. apply lookup_delete_eq.
    + apply (Get_hit k c2 e en Hwf2 Hk2). rewrite Hs2. simpl.
      rewrite lookup_app_l by by eapply lookup_lt_Some. done.
Qed.

(** C1: from [New C expire] with [C > 0], after any interleaving of calls and
    sweeper steps, [Set] returns with [Len] at most [C]; when it inserts a new
    key into a cache that already holds [C] entries, it unlinks exactly one
    element, the one at the back, so that [Len] is what it was. *)
Theorem Set_keeps_capacity (C expire : Z) (evs : list (@event V)) now k v :
  0 < C →
  ∃ s c' n,
    run evs (init C expire) = Some s ∧
    Set_ now k v s.1 = Some c' ∧
    Len c' = Some n ∧ 0 ≤ n ≤ C ∧
    (absent k s.1 → C < GoList.Len (lru s.1) + 1 →
     ∃ b, GoList.Back (length (store s.1) :: lru s.1) = Some b ∧
          lru c' = GoList.remove1 b (length (store s.1) :: lru s.1) ∧
          Len c' = Len s.1).
Proof.
  intros HC.
  destruct (bounded_run C evs (init C expire) HC (bounded_init C expire HC))
    as (s & Hrun & Hb).
  destruct (bounded_Set C now k v s.1 HC Hb) as (c' & HS & Hb' & Hev).
  assert (∀ c, bounded C c → Len c = Some (GoList.Len (lru c))) as HLen.
  { intros c (_ & Hs & _). unfold Len, lru.
    destruct (sd_map c Hs) as [m ->]. by destruct (sd_list c Hs) as [l ->]. }
  exists s, c', (GoList.Len (lru c')). split_and!; try done.
  - by apply HLen.
  - unfold GoList.Len. lia.
  - by destruct Hb' as (_ & _ & ?).
  - intros Hk Hfull. destruct (Hev Hk Hfull) as (b & Hback & Hl' & Hn).
    exists b. split_and!; try done. rewrite !HLen by done. by rewrite Hn.
Qed.

(** C3, amended: [Set] on a key that is already present leaves its element
    where it was in the expiry slice but refreshes its timestamp, so the
    expiry instant that the sweeper computes for it is the time of this last
    write plus the expiration, not the time of the first insertion plus the
    expiration. *)
Theorem refreshed_expiry_is_last_write now k v c e :
  wf c → cmap c !! k = Some e →
  ∃ c',
    Set_ now k v c = Some c' ∧
    ttlIndex c' = ttlIndex c ∧
    expiryInstant c' e = Some (GoTime.Add now (expiration c)) ∧
    (∀ q, queue c = e :: q →
          sweepPeek c' = Some (Head e (GoTime.Add now (expiration c)))).
Proof.
  intros Hwf Hk.
  destruct (Set_present now k v c e Hwf Hk) as (en & Hen & _ & _ & _ & HS & _).
  eexists. split; [exact HS|]. split; [done|].
  assert (<[e:=Entry k v now]> (store c) !! e = Some (Entry k v now)) as Hst.
  { apply list_lookup_insert_eq. by eapply lookup_lt_Some. }
  split.
  - unfold expiryInstant. simpl. by rewrite Hst.
  - intros q Hq. unfold sweepPeek, queue in *. simpl. rewrite Hq.
    by rewrite Hst.
Qed.

(** C4 (the code misses it): when the head of the queue has not expired, the
    duration that the sweeper hands to [time.Sleep] is the clock minus the
    expiry instant, which is negative, not the expiry instant minus the
    clock; the sweeper is not suspended at all and goes round the loop. *)
Theorem sweeper_sleep_is_negative (expire : Z) e exp now1 now2 :
  now1 ≤ now2 → now2 < exp →
  ∃ d, sweepDecide expire (Head e exp) now1 now2 = Sleep d ∧
       d = GoTime.Sub now2 exp ∧ d < 0 ∧ GoTime.paused d = 0.
Proof.
  intros H12 H2. unfold sweepDecide, GoTime.After.
  rewrite bool_decide_eq_false_2 by lia. eexists. split; [done|]. split; [done|].
  assert (GoTime.Sub now2 exp < 0) as Hneg.
  { unfold GoTime.Sub, GoTime.minDuration, GoTime.maxDuration.
    repeat case_bool_decide; lia. }
  split; [done|]. unfold GoTime.paused. lia.
Qed.

(** The structural invariant contains the two invariants of C5. *)
Lemma wf_same_keys c : wf c → same_keys c ∧ queue_live c.
Proof.
  intros Hwf. split; [|apply Hwf]. intros k. split.
  - intros [e He]. exists e. by apply (wf_map c Hwf).
  - intros (e & He & Hk). exists e. by apply (wf_map c Hwf).
Qed.

End claims.

(** ** Instances of the claims on worked states *)

Lemma absent_Get_Delete_witness :
  Get "b" (after 2 0 [CallSet 0 "a" (Some 1)])
    = Some (after 2 0 [CallSet 0 "a" (Some 1)], (None, false)) ∧
  Delete "b" (after 2 0 [CallSet 0 "a" (Some 1)])
    = Some (after 2 0 [CallSet 0 "a" (Some 1)]).
Proof. apply absent_Get_Delete. vm_compute. reflexivity. Defined.

Lemma nil_map_total_witness :
  ∃ c', Set_ 7 "a" (Some 1) (zeroCache 3 10) = Some c' ∧ is_Some (cache c') ∧
        is_Some (lruIndex c') ∧ (0 < 10 → is_Some (ttlIndex c')).
Proof.
  refine (proj1 (proj2 (proj2 (proj2 (proj2 (proj2
    (nil_map_total (zeroCache 3 10) "a" (Some 1) 7 _))))))).
  reflexivity.
Defined.

Lemma Set_present_in_place_witness :
  ∃ c' l,
    Set_ 5 "a" (Some 9) two_slots = Some c' ∧
    store c' !! 0%nat = Some (Entry "a" (Some 9) 5) ∧
    lruIndex two_slots = Some l ∧ 0%nat ∈ l ∧
    lruIndex c' = Some (0%nat :: GoList.remove1 0%nat l) ∧
    Len c' = Len two_slots ∧
    (∀ x, x ∈ lru c' ↔ x ∈ lru two_slots) ∧
    cache c' = cache two_slots ∧ ttlIndex c' = ttlIndex two_slots ∧
    maxEntries c' = maxEntries two_slots ∧
    expiration c' = expiration two_slots ∧
    length (store c') = length (store two_slots) ∧
    (∀ x, x ≠ 0%nat → store c' !! x = store two_slots !! x).
Proof.
  apply Set_present_in_place.
  - by apply wf_after.
  - vm_compute. reflexivity.
Defined.

Lemma Set_then_Get_witness :
  ∃ c' c'', Set_ 5 "c" (Some 3) two_slots = Some c' ∧
            Get "c" c' = Some (c'', (Some 3, true)).
Proof.
  apply Set_then_Get.
  - by apply wf_after.
  - vm_compute. discriminate.
Defined.

Lemma eviction_takes_back_witness :
  ∃ c1 c2 c3 en b kb,
    store two_slots !! 0%nat = Some en ∧
    Get "a" two_slots = Some (c1, (value en, true)) ∧
    lru c1 = 0%nat :: GoList.remove1 0%nat (lru two_slots) ∧
    Set_ 5 "c" (Some 3) c1 = Some c2 ∧
    GoList.Back (lru c1) = Some b ∧
    GoList.Back (GoList.remove1 0%nat (lru two_slots)) = Some b ∧
    key_of two_slots b = Some kb ∧ kb ≠ "a" ∧
    lru c2 = length (store two_slots) :: removelast (lru c1) ∧
    cmap c2 = delete kb (<["c" := length (store two_slots)]> (cmap two_slots)) ∧
    cmap c2 !! kb = None ∧ cmap c2 !! "a" = Some 0%nat ∧
    Get "a" c2 = Some (c3, (value en, true)).
Proof.
  refine (proj2 (eviction_takes_back 5 "c" (Some 3) two_slots _ _ _ _)
            "a" 0%nat _ _).
  - by apply wf_after.
  - vm_compute. reflexivity.
  - vm_compute. reflexivity.
  - vm_compute. reflexivity.
  - vm_compute. reflexivity.
  - exists 1%nat. split; [|lia].
    assert (lru two_slots = [1; 0]%nat) as -> by (vm_compute; reflexivity).
    left.
Defined.

(** C2 as it is stated fails at capacity 1: the key that was just read is
    the only entry, hence the back of the list, and the insert evicts it. *)
Lemma Get_does_not_protect_single_entry :
  ∃ c1 c2,
    maxEntries one_slot = 1 ∧
    Get "a" one_slot = Some (c1, (Some 1, true)) ∧
    Set_ 1 "b" (Some 2) c1 = Some c2 ∧
    Len c2 = Some 1 ∧
    Get "a" c2 = Some (c2, (None, false)).
Proof.
  eexists _, _. split; [reflexivity|].
  split; [vm_compute; reflexivity|].
  split; [vm_compute; reflexivity|].
  split; vm_compute; reflexivity.
Defined.

Lemma Set_keeps_capacity_witness :
  ∃ s c' n,
    run [CallSet 0 "a" (Some 1); CallSet 1 "b" (Some 2)] (init 2 0) = Some s ∧
    Set_ 2 "c" (Some 3) s.1 = Some c' ∧
    Len c' = Some n ∧ 0 ≤ n ≤ 2 ∧
    (absent "c" s.1 → 2 < GoList.Len (lru s.1) + 1 →
     ∃ b, GoList.Back (length (store s.1) :: lru s.1) = Some b ∧
          lru c' = GoList.remove1 b (length (store s.1) :: lru s.1) ∧
          Len c' = Len s.1).
Proof. apply Set_keeps_capacity. lia. Defined.

Lemma refreshed_expiry_is_last_write_witness :
  ∃ c',
    Set_ 5 "k" (Some 2) unexpired = Some c' ∧
    ttlIndex c' = ttlIndex unexpired ∧
    expiryInstant c' 0%nat = Some (GoTime.Add 5 (expiration unexpired)) ∧
    (∀ q, queue unexpired = 0%nat :: q →
          sweepPeek c' = Some (Head 0%nat (GoTime.Add 5 (expiration unexpired)))).
Proof.
  apply refreshed_expiry_is_last_write.
  - by apply wf_after.
  - vm_compute. reflexivity.
Defined.

(** C3 as it is stated fails: ["k"] was inserted at 0 and written again at 5;
    the sweeper computes 15 for it, not 10. *)
Lemma refreshed_expiry_not_from_insertion :
  ∃ e exp,
    cmap rewritten !! "k" = Some e ∧
    sweepPeek rewritten = Some (Head e exp) ∧
    exp = GoTime.Add 5 10 ∧ exp ≠ GoTime.Add 0 10.
Proof.
  exists 0%nat, 15. split; [vm_compute; reflexivity|].
  split; [vm_compute; reflexivity|]. split; [reflexivity|].
  unfold GoTime.Add. lia.
Defined.

(** The failing input of C4: ["k"] written at 0 expires at 10; at 3 the
    sweeper asks for a sleep of -7ns and is back at the top of its loop, the
    cache as it was. *)
Lemma sweeper_sleep_is_negative_witness :
  ∃ d, sweepDecide 10 (Head 0%nat 10) 3 3 = Sleep d ∧
       d = GoTime.Sub 3 10 ∧ d < 0 ∧ GoTime.paused d = 0.
Proof. apply sweeper_sleep_is_negative; lia. Defined.

Lemma sweeper_spins_at_3 :
  sweepPeek unexpired = Some (Head 0%nat 10) ∧
  sweepDecide 10 (Head 0%nat 10) 3 3 = Sleep (-7) ∧
  run [SweepPeek; SweepAct 3 3] (unexpired, Idle) = Some (unexpired, Idle).
Proof. split_and!; vm_compute; reflexivity. Qed.

(** C5 (the code misses it): the sweeper removes the element it found before
    it let go of the lock.  When its key has been deleted and written again
    in between, the element is no longer in the list, but its key is deleted
    from the map all the same: the live element of ["k"] stays in the list
    and in the expiry slice with no entry in the map. *)
Theorem stale_sweep_orphans_element :
  ∃ s0 s,
    run stale_prefix (init 0 10) = Some s0 ∧ wf s0.1 ∧
    s0.2 = Peeked (Head 0%nat 10) ∧
    step (SweepAct 12 12) s0 = Some s ∧
    lru s.1 = [1%nat] ∧ queue s.1 = [1%nat] ∧
    key_of s.1 1%nat = Some "k" ∧ cmap s.1 !! "k" = None ∧
    ¬ same_keys s.1 ∧
    Len s.1 = Some 1 ∧ Get "k" s.1 = Some (s.1, (None, false)).
Proof.
  eexists _, _. split; [vm_compute; reflexivity|].
  split.
  { apply (wf_after 0 10 [CallSet 0 "k" (Some 1); CallDelete "k";
                          CallSet 11 "k" (Some 2)]). reflexivity. }
  split; [reflexivity|]. split; [vm_compute; reflexivity|].
  split; [reflexivity|]. split; [reflexivity|]. split; [reflexivity|].
  split; [reflexivity|]. split.
  - intros Hsame. destruct (proj2 (Hsame "k")) as [x Hx]; [|done].
    exists 1%nat. split; [left|reflexivity].
  - split; vm_compute; reflexivity.
Qed.

(** * The cache as a list of keys and values *)

Section pairs.
Context {V : Type}.
Implicit Types (h : list (@entry V)) (e x : elem) (k : string)
  (l : list elem) (en : @entry V).

Lemma pair_of_Some h e en :
  h !! e = Some en → pair_of h e = Some (key en, value en).
Proof. unfold pair_of. by intros ->. Qed.

Lemma pair_of_key h e k (v : @iface V) :
  pair_of h e = Some (k, v) → key <$> h !! e = Some k.
Proof.
  unfold pair_of. destruct (h !! e); simpl; [|done]. by intros [= -> _].
Qed.

Lemma omap_cons {A B} (f : A → option B) (x : A) (l : list A) :
  omap f (x :: l) = match f x with Some y => y :: omap f l | None => omap f l end.
Proof. done. Qed.

Lemma omap_pair_ext h h' l :
  (∀ x, x ∈ l → pair_of h' x = pair_of h x) →
  omap (pair_of h') l = omap (pair_of h) l.
Proof.
  induction l as [|x l IH]; intros Hx; [done|].
  rewrite !omap_cons, Hx by left. rewrite IH; [done|].
  intros y Hy. apply Hx. by right.
Qed.

Lemma omap_pair_app h en l :
  (∀ x, x ∈ l → (x < length h)%nat) →
  omap (pair_of (h ++ [en])) l = omap (pair_of h) l.
Proof.
  intros Hl. apply omap_pair_ext. intros x Hx. unfold pair_of.
  by rewrite lookup_app_l by by apply Hl.
Qed.

Lemma omap_pair_insert h e en l :
  e ∉ l → omap (pair_of (<[e := en]> h)) l = omap (pair_of h) l.
Proof.
  intros He. apply omap_pair_ext. intros x Hx. unfold pair_of.
  rewrite list_lookup_insert_ne; [done|]. by intros ->.
Qed.

Lemma omap_pair_other h k l :
  (∀ x, x ∈ l → key <$> h !! x ≠ Some k) →
  filter (λ p, p.1 ≠ k) (omap (pair_of h) l) = omap (pair_of h) l.
Proof.
  induction l as [|x l IH]; intros Hx; [done|].
  assert (filter (λ p, p.1 ≠ k) (omap (pair_of h) l) = omap (pair_of h) l)
    as IH' by (apply IH; intros y Hy; apply Hx; by right).
  rewrite omap_cons. destruct (pair_of h x) as [[kx vx]|] eqn:Hp; [|done].
  rewrite filter_cons_True, IH'; [done|]. simpl. intros ->.
  apply (Hx x); [left|]. by apply pair_of_key in Hp.
Qed.

(** Unlinking the only element that holds [k] filters [k] out. *)
Lemma omap_pair_remove1 h e k l :
  NoDup l → key <$> h !! e = Some k →
  (∀ x, x ∈ l → x ≠ e → key <$> h !! x ≠ Some k) →
  omap (pair_of h) (GoList.remove1 e l)
    = filter (λ p, p.1 ≠ k) (omap (pair_of h) l).
Proof.
  intros Hnd He. induction Hnd as [|x l Hxl Hnd IH]; intros Hx; [done|].
  destruct (decide (x = e)) as [->|Hne].
  - simpl GoList.remove1. rewrite decide_True by done.
    destruct (h !! e) as [en|] eqn:Hen; [|done].
    rewrite omap_cons, (pair_of_Some h e en Hen).
    simpl in He. injection He as He.
    rewrite filter_cons_False by (simpl; intros Hk; by apply Hk).
    symmetry. apply omap_pair_other. intros y Hy.
    apply Hx; [by right|]. by intros ->.
  - rewrite remove1_cons_ne by done. rewrite !omap_cons.
    assert (omap (pair_of h) (GoList.remove1 e l)
            = filter (λ p, p.1 ≠ k) (omap (pair_of h) l)) as IH'.
    { apply IH. intros y Hy. apply Hx. by right. }
    destruct (pair_of h x) as [[kx vx]|] eqn:Hp; [|done].
    rewrite filter_cons_True, IH'; [done|]. simpl. intros ->.
    apply (Hx x); [left|done|]. by apply pair_of_key in Hp.
Qed.

Lemma omap_removelast {A B} (f : A → option B) (la : list A) :
  (∀ a, a ∈ la → is_Some (f a)) →
  omap f (removelast la) = removelast (omap f la).
Proof.
  induction la as [|a la IH]; intros Ha; [done|].
  destruct (Ha a) as [y Hy]; [left|].
  destruct la as [|a' la'].
  { simpl. by rewrite Hy. }
  assert (omap f (removelast (a' :: la')) = removelast (omap f (a' :: la')))
    as IH' by (apply IH; intros z Hz; apply Ha; by right).
  change (removelast (a :: a' :: la')) with (a :: removelast (a' :: la')).
  rewrite !omap_cons, Hy. rewrite omap_cons in IH'.
  destruct (Ha a') as [y' Hy']; [right; left|]. rewrite Hy' in IH' |- *.
  change (removelast (y :: y' :: omap f la'))
    with (y :: removelast (y' :: omap f la')).
  by rewrite IH'.
Qed.

End pairs.

Section listview.
Context {V : Type}.
Implicit Types (c : @Cache V) (e x : elem) (k : string) (v : @iface V)
  (l : list elem) (en : @entry V).

Lemma omap_pair_length (h : list (@entry V)) l :
  (∀ x, x ∈ l → (x < length h)%nat) → length (omap (pair_of h) l) = length l.
Proof.
  induction l as [|x l IH]; intros Hx; [done|].
  destruct (lookup_lt_is_Some_2 h x) as [en Hen]; [apply Hx; left|].
  rewrite omap_cons, (pair_of_Some h x en Hen). simpl. f_equal.
  apply IH. intros y Hy. apply Hx. by right.
Qed.

Lemma contents_length c : wf c → length (contents c) = length (lru c).
Proof. intros Hwf. apply omap_pair_length, (wf_alloc c Hwf). Qed.

(** A pair is in the list exactly when the map sends its key to an element
    whose entry holds its value. *)
Lemma contents_elem c k v :
  wf c →
  (k, v) ∈ contents c ↔
  ∃ e en, cmap c !! k = Some e ∧ store c !! e = Some en ∧ value en = v.
Proof.
  intros Hwf. unfold contents. rewrite list_elem_of_omap. split.
  - intros (e & He & Hp). unfold pair_of in Hp.
    destruct (store c !! e) as [en|] eqn:Hen; [|done].
    simpl in Hp. injection Hp as Hk Hv. exists e, en. split; [|done].
    apply (wf_map c Hwf). split; [done|]. unfold key_of. by rewrite Hen, <- Hk.
  - intros (e & en & [He Hk]%(wf_map c Hwf) & Hen & Hv). exists e.
    split; [done|]. unfold key_of in Hk. rewrite Hen in Hk. simpl in Hk.
    rewrite (pair_of_Some _ e en Hen). congruence.
Qed.

Lemma contents_key c k :
  wf c → k ∈ (contents c).*1 ↔ is_Some (cmap c !! k).
Proof.
  intros Hwf. rewrite list_elem_of_fmap. split.
  - intros ([k' v] & -> & (e & en & He & _)%(contents_elem c _ _ Hwf)). eauto.
  - intros [e He]. pose proof He as [Hin Hk]%(wf_map c Hwf).
    pose proof (wf_alloc c Hwf e Hin) as [en Hen]%lookup_lt_is_Some.
    exists (k, value en). split; [done|]. apply (contents_elem c _ _ Hwf). eauto.
Qed.

(** Two linked elements never hold the same key. *)
Lemma wf_other_key c e k x :
  wf c → e ∈ lru c → key_of c e = Some k → x ∈ lru c → x ≠ e →
  key <$> store c !! x ≠ Some k.
Proof.
  intros Hwf He Hk Hx Hne Hkx. apply Hne.
  assert (cmap c !! k = Some e) as H1 by by apply (wf_map c Hwf).
  assert (cmap c !! k = Some x) as H2 by by apply (wf_map c Hwf).
  congruence.
Qed.

Lemma contents_keys_NoDup c : wf c → NoDup (contents c).*1.
Proof.
  intros Hwf. unfold contents.
  assert (∀ e x, e ∈ lru c → x ∈ lru c → x ≠ e →
            key <$> store c !! x ≠ key <$> store c !! e) as Hinj.
  { intros e x He Hx Hne.
    destruct (wf_key c e Hwf He) as (k & Hk & _). unfold key_of in Hk.
    rewrite Hk. by apply (wf_other_key c e k x). }
  pose proof (wf_nodup c Hwf) as Hnd. revert Hinj.
  induction Hnd as [|e l Hel Hnd IH]; intros Hinj; [constructor|].
  assert (NoDup (omap (pair_of (store c)) l).*1) as IH'.
  { apply IH. intros e' x He' Hx. apply Hinj; by right. }
  rewrite omap_cons. destruct (pair_of (store c) e) as [[k v]|] eqn:Hp; [|done].
  rewrite fmap_cons. constructor; [|done]. simpl.
  rewrite list_elem_of_fmap. intros ([k' v'] & Hkk & (x & Hx & Hpx)%list_elem_of_omap).
  simpl in Hkk. subst k'.
  apply (Hinj e x); [left|by right|by intros ->|].
  apply pair_of_key in Hp, Hpx. congruence.
Qed.

(** What [Get] reports, read from the map and the store. *)
Lemma found_eq c k :
  wf c →
  found k c =
    Some (match cmap c !! k with
          | Some e =>
              match store c !! e with
              | Some en => (value en, true)
              | None => (None, false)
              end
          | None => (None, false)
          end).
Proof.
  intros Hwf. unfold found. destruct (cmap c !! k) as [e|] eqn:Hk.
  - pose proof Hk as [Hin _]%(wf_map c Hwf).
    pose proof (wf_alloc c Hwf e Hin) as [en Hen]%lookup_lt_is_Some.
    by rewrite (Get_hit k c e en Hwf Hk Hen), Hen.
  - unfold Get, cmap in *. destruct (cache c); simpl in *; [|done].
    by rewrite Hk.
Qed.

End listview.

Section listops.
Context {V : Type}.
Implicit Types (c : @Cache V) (e x : elem) (k : string) (v : @iface V)
  (l : list elem) (en : @entry V).

Lemma found_contents c k v :
  wf c → (k, v) ∈ contents c → found k c = Some (v, true).
Proof.
  intros Hwf (e & en & He & Hen & <-)%(contents_elem c k v Hwf).
  by rewrite (found_eq c k Hwf), He, Hen.
Qed.

Lemma found_not_contents c k :
  wf c → k ∉ (contents c).*1 → found k c = Some (None, false).
Proof.
  intros Hwf Hk. rewrite (contents_key c k Hwf) in Hk.
  rewrite (found_eq c k Hwf). destruct (cmap c !! k); [|done].
  exfalso. apply Hk. eauto.
Qed.

Lemma wf_Len_contents c : wf c → Len c = Some (Z.of_nat (length (contents c))).
Proof.
  intros Hwf. rewrite (contents_length c Hwf). unfold Len.
  destruct (cache c) eqn:Hm.
  - destruct (wf_ptr c Hwf) as [l Hl]; [by rewrite Hm|].
    by rewrite (lru_Some c l Hl), Hl.
  - by rewrite (wf_nil_map c Hwf Hm).
Qed.

(** Unlinking a linked element filters its key out of the list. *)
Lemma contents_removeElement c e k :
  wf c → e ∈ lru c → key_of c e = Some k →
  ∃ c', removeElement e c = Some c' ∧ wf c' ∧
    contents c' = filter (λ p, p.1 ≠ k) (contents c) ∧
    lru c' = GoList.remove1 e (lru c) ∧
    cmap c' = delete k (cmap c) ∧ store c' = store c ∧
    maxEntries c' = maxEntries c ∧ expiration c' = expiration c ∧
    (0 < expiration c → queue c' = GoList.remove1 e (queue c)).
Proof.
  intros Hwf He Hk.
  destruct (wf_removeElement c e Hwf He)
    as (c' & k' & Hr & Hwf' & Hk' & Hl' & Hm' & Hs' & Hx' & Hex' & _).
  assert (k' = k) as -> by congruence.
  exists c'. split_and!; try done.
  - unfold contents. rewrite Hl', Hs'.
    apply omap_pair_remove1; [apply Hwf|done|].
    intros x Hx Hne. by apply (wf_other_key c e k x).
  - intros Hexp. destruct (lru_elem_ptr c e He) as [l Hl].
    rewrite (removeElement_eq c e l Hl) in Hr. injection Hr as <-.
    unfold queue. simpl. rewrite bool_decide_eq_true_2 by done.
    pose proof (wf_queue c Hwf Hexp) as [Hq _]. unfold queue in Hq.
    destruct (ttlIndex c); simpl in *; [done|].
    exfalso. apply Hq in He. by apply elem_of_nil in He.
Qed.

Lemma contents_with_store (h : list (@entry V)) l c :
  contents (with_store h (with_lruIndex l c)) = omap (pair_of h) l.
Proof. done. Qed.


(** Moving a linked element to the front and writing a value into its entry
    moves its pair to the front of the list. *)
Lemma contents_touch c e k v now :
  wf c → cmap c !! k = Some e →
  contents (with_store (<[e := Entry k v now]> (store c))
              (with_lruIndex (e :: GoList.remove1 e (lru c)) c))
    = (k, v) :: filter (λ p, p.1 ≠ k) (contents c).
Proof.
  intros Hwf Hm. pose proof Hm as [He Hk]%(wf_map c Hwf).
  pose proof (wf_alloc c Hwf e He) as Hlt.
  rewrite contents_with_store, omap_cons.
  unfold pair_of at 1. rewrite list_lookup_insert_eq by done.
  cbn [fmap option_fmap option_map key value].
  f_equal. rewrite omap_pair_insert by (apply remove1_gone, Hwf).
  apply omap_pair_remove1; [apply Hwf|done|].
  intros x Hx Hne. by apply (wf_other_key c e k x).
Qed.


(** [Set] of an absent key, for any capacity: the element is pushed, and the
    back of the list goes if the capacity is not zero and is exceeded. *)
Lemma Set_absent_cases now k v c :
  wf c → absent k c →
  ∃ c', Set_ now k v c = Some c' ∧ wf c' ∧
    store c' = store c ++ [Entry k v now] ∧
    maxEntries c' = maxEntries c ∧ expiration c' = expiration c ∧
    contents c' = evict (maxEntries c) ((k, v) :: contents c) ∧
    ((lru c' = length (store c) :: lru c ∧
      cmap c' = <[k := length (store c)]> (cmap c)) ∨
     (∃ b kb, GoList.Back (length (store c) :: lru c) = Some b ∧
        key <$> (store c ++ [Entry k v now]) !! b = Some kb ∧
        maxEntries c ≠ 0 ∧
        maxEntries c < GoList.Len (length (store c) :: lru c) ∧
        lru c' = removelast (length (store c) :: lru c) ∧
        cmap c' = delete kb (<[k := length (store c)]> (cmap c)))).
Proof.
  intros Hwf Hk.
  destruct (Set_absent now k v c Hwf Hk) as (Hl & Hm & Hst & Hmx & Hex & ->).
  rewrite (SetAbsent_eq now k v (cmap c) (lru c)) by done.
  rewrite Hmx, Hst.
  pose proof (wf_insertNew now k v (cmap c) (lru c) (lazyInit c)
                (wf_lazyInit c Hwf) Hm Hl Hk) as Hwf3.
  set (c3 := insertNew now k v (cmap c) (lru c) (lazyInit c)) in *.
  assert (lru c3 = length (store c) :: lru c ∧
          cmap c3 = <[k := length (store c)]> (cmap c) ∧
          store c3 = store c ++ [Entry k v now] ∧
          maxEntries c3 = maxEntries c ∧ expiration c3 = expiration c ∧
          cache c3 = Some (<[k := length (store c)]> (cmap c)) ∧
          lruIndex c3 = Some (length (store c) :: lru c))
    as (Hl3 & Hm3 & Hs3 & Hx3 & He3 & Hp3 & Hi3).
  { unfold c3. rewrite insertNew_eq, Hst, Hmx, Hex. unfold lru at 1, cmap at 1.
    simpl. split_and!; done. }
  assert (contents c3 = (k, v) :: contents c) as Hc3.
  { unfold contents. rewrite Hl3, Hs3, omap_cons. unfold pair_of at 1.
    rewrite lookup_app_r, Nat.sub_diag by done. simpl. f_equal.
    apply omap_pair_app, (wf_alloc c Hwf). }
  assert (Z.of_nat (length ((k, v) :: contents c))
          = GoList.Len (length (store c) :: lru c)) as Hlen.
  { unfold GoList.Len. simpl. by rewrite (contents_length c Hwf). }
  unfold evict. rewrite Hlen.
  destruct (bool_decide (maxEntries c ≠ 0) && _) eqn:Hev.
  - apply andb_true_iff in Hev as [H1%bool_decide_eq_true H2%bool_decide_eq_true].
    destruct (last (length (store c) :: lru c)) as [b|] eqn:Hb;
      [|by apply last_None in Hb].
    assert (b ∈ lru c3) as Hbin by (rewrite Hl3; by apply last_Some_elem_of).
    destruct (wf_key c3 b Hwf3 Hbin) as (kb & Hkb & _).
    destruct (contents_removeElement c3 b kb Hwf3 Hbin Hkb)
      as (c' & Hr & Hwf' & _ & Hl' & Hm' & Hs' & Hx' & He' & _).
    assert (lru c' = removelast (length (store c) :: lru c)) as Hl''.
    { rewrite Hl', Hl3. apply remove1_last; [|done]. rewrite <- Hl3. apply Hwf3. }
    exists c'. split.
    { unfold removeOldest. rewrite Hp3, Hi3. simpl. unfold GoList.Back.
      by rewrite Hb. }
    split_and!; try congruence.
    + unfold contents at 1. rewrite Hl'', Hs', <- Hl3, <- Hc3.
      apply omap_removelast. intros x Hx.
      destruct (lookup_lt_is_Some_2 (store c3) x) as [en Hen];
        [by apply (wf_alloc c3 Hwf3)|].
      rewrite (pair_of_Some _ x en Hen). eauto.
    + right. exists b, kb. unfold key_of in Hkb. rewrite Hs3 in Hkb.
      split_and!; try done. by rewrite Hm', Hm3.
  - exists c3. split_and!; try done. by left.
Qed.

End listops.

Section listfacts.
Context {V : Type}.
Implicit Types (c : @Cache V) (e x : elem) (k : string) (v : @iface V)
  (l : list elem) (en : @entry V) (ps : list (string * @iface V)).

Lemma found_hit c k v :
  wf c → found k c = Some (v, true) → (k, v) ∈ contents c.
Proof.
  intros Hwf. rewrite (found_eq c k Hwf).
  destruct (cmap c !! k) as [e|] eqn:He; [|done].
  destruct (store c !! e) as [en|] eqn:Hen; [|done].
  intros [= <-]. apply (contents_elem c _ _ Hwf). eauto.
Qed.

Lemma removelast_subset {A} (a : A) (la : list A) :
  a ∈ removelast la → a ∈ la.
Proof.
  induction la as [|b la IH]; [done|]. destruct la as [|b' la'].
  { by intros ?%elem_of_nil. }
  change (removelast (b :: b' :: la')) with (b :: removelast (b' :: la')).
  rewrite !(elem_of_cons _ a b). intros [->|Ha]; [by left|right; by apply IH].
Qed.

Lemma evict_subset (C : Z) ps p : p ∈ evict C ps → p ∈ ps.
Proof.
  unfold evict. destruct (_ && _); [apply removelast_subset|done].
Qed.

(** Under the capacity, or with capacity zero, nothing goes; at the
    capacity, the list is cut to it. *)
Lemma evict_take (C : Z) p ps :
  C = 0 ∨ (length ps ≤ Z.to_nat C)%nat →
  evict C (p :: ps) = if decide (C = 0) then p :: ps
                      else take (Z.to_nat C) (p :: ps).
Proof.
  intros Hfit. unfold evict. destruct (decide (C = 0)) as [->|HC].
  { by rewrite bool_decide_eq_false_2 by tauto. }
  destruct Hfit as [?|Hfit]; [done|].
  rewrite bool_decide_eq_true_2 by done. simpl andb.
  case_bool_decide as Hlen.
  - rewrite removelast_firstn_len. f_equal. simpl in Hlen |- *. lia.
  - rewrite take_ge; [done|]. simpl in Hlen |- *. lia.
Qed.

End listfacts.

(** * What the operations do to the list of keys and values *)

Section listclaims.
Context {V : Type}.
Implicit Types (c : @Cache V) (e x : elem) (k : string) (v : @iface V)
  (l : list elem) (en : @entry V) (ps kvs : list (string * @iface V)).

(** X1: the list of keys and values says what the cache answers.  No key is
    in it twice, [Len] is its length, [Get] of a key returns the value listed
    with it, and [Get] of a key that is not listed misses. *)
Theorem contents_answers c :
  wf c →
  NoDup (contents c).*1 ∧
  Len c = Some (Z.of_nat (length (contents c))) ∧
  (∀ k v, found k c = Some (v, true) ↔ (k, v) ∈ contents c) ∧
  (∀ k, found k c = Some (None, false) ↔ k ∉ (contents c).*1).
Proof.
  intros Hwf. split_and!.
  - by apply contents_keys_NoDup.
  - by apply wf_Len_contents.
  - intros k v. split; [by apply found_hit|by apply found_contents].
  - intros k. split; [|by apply found_not_contents].
    intros Hmiss [[k' v] [-> Hin]]%list_elem_of_fmap.
    apply (found_contents c _ _ Hwf) in Hin. simpl in *. congruence.
Qed.

(** X2: [Set(k, v)] on the list of a cache that satisfies the structural
    invariant [wf].  When [k] is listed, its pair moves to the front with the
    new value and nothing is evicted; otherwise the pair is put in front and
    the last pair goes if the capacity is not zero and is exceeded.  No other
    key gets a value it did not have, and the invariant holds afterwards. *)
Theorem Set_on_contents now k v c :
  wf c →
  ∃ c', Set_ now k v c = Some c' ∧ wf c' ∧
    contents c' =
      (if decide (k ∈ (contents c).*1)
       then (k, v) :: filter (λ p, p.1 ≠ k) (contents c)
       else evict (maxEntries c) ((k, v) :: contents c)) ∧
    (∀ k' v', k' ≠ k → found k' c' = Some (v', true) →
              found k' c = Some (v', true)).
Proof.
  intros Hwf.
  assert (∃ c', Set_ now k v c = Some c' ∧ wf c' ∧
            contents c' =
              (if decide (k ∈ (contents c).*1)
               then (k, v) :: filter (λ p, p.1 ≠ k) (contents c)
               else evict (maxEntries c) ((k, v) :: contents c)))
    as (c' & HS & Hwf' & Hc').
  { destruct (decide (k ∈ (contents c).*1)) as [Hin|Hout].
    - apply (contents_key c k Hwf) in Hin as [e He].
      destruct (Set_present now k v c e Hwf He) as (en & _ & _ & _ & _ & HS & Hwf').
      eexists. split; [exact HS|]. split; [done|]. by apply contents_touch.
    - assert (absent k c) as Hk.
      { unfold absent. destruct (cmap c !! k) eqn:Hm; [|done].
        exfalso. apply Hout, (contents_key c k Hwf). eauto. }
      destruct (Set_absent_cases now k v c Hwf Hk)
        as (c' & HS & Hwf' & _ & _ & _ & Hc' & _).
      by exists c'. }
  exists c'. split_and!; try done.
  intros k' v' Hne Hf. apply (found_contents c _ _ Hwf).
  apply (found_hit c' _ _ Hwf') in Hf. rewrite Hc' in Hf.
  destruct (decide (k ∈ (contents c).*1)).
  - apply elem_of_cons in Hf as [[= ? ?]|Hf]; [done|].
    by apply list_elem_of_filter in Hf as [_ Hf].
  - apply evict_subset, elem_of_cons in Hf as [[= ? ?]|Hf]; done.
Qed.


(** X4: [Delete(k)] on the list of a cache that satisfies the structural
    invariant [wf]: the pair of [k] goes, if there is one, and the others
    stay in their order.  Afterwards [Get(k)] misses, every other key answers
    as before, and the invariant holds. *)
Theorem Delete_on_contents k c :
  wf c →
  ∃ c', Delete k c = Some c' ∧ wf c' ∧
    contents c' = filter (λ p, p.1 ≠ k) (contents c) ∧
    found k c' = Some (None, false) ∧
    (∀ k', k' ≠ k → found k' c' = found k' c).
Proof.
  intros Hwf.
  assert (∃ c', Delete k c = Some c' ∧ wf c' ∧
            contents c' = filter (λ p, p.1 ≠ k) (contents c) ∧
            cmap c' = delete k (cmap c) ∧ store c' = store c)
    as (c' & HD & Hwf' & Hc' & Hm' & Hs').
  { destruct (cmap c !! k) as [e|] eqn:He.
    - pose proof He as [Hin Hk]%(wf_map c Hwf).
      destruct (contents_removeElement c e k Hwf Hin Hk)
        as (c' & Hr & Hwf' & Hc' & _ & Hm' & Hs' & _).
      exists c'. split_and!; try done.
      unfold Delete, cmap in *. destruct (cache c); simpl in *.
      + by rewrite He.
      + by rewrite lookup_empty in He.
    - exists c. split_and!; try done.
      + unfold Delete, cmap in *. destruct (cache c); simpl in *; [|done].
        by rewrite He.
      + symmetry. apply omap_pair_other. intros x Hx Hkx.
        assert (cmap c !! k = Some x) as Hm by by apply (wf_map c Hwf).
        congruence.
      + by rewrite delete_id. }
  exists c'. split_and!; try done.
  - rewrite (found_eq c' k Hwf'), Hm'. by rewrite lookup_delete_eq.
  - intros k' Hne. rewrite (found_eq c' k' Hwf'), (found_eq c k' Hwf), Hm', Hs'.
    by rewrite lookup_delete_ne.
Qed.

(** X5: one uninterrupted turn of the sweeper on a cache that satisfies the
    structural invariant [wf], with expiration on and a non-empty expiry
    queue.  It looks at the head only.  If the clock is strictly after the
    head's timestamp plus the expiration, the head's pair is removed and all
    others stay, whatever their timestamps, and the invariant holds
    afterwards; if the clock is at or before that instant, the cache is not
    changed. *)
Theorem sweeper_turn_on_contents c e (q : list elem) now1 now2 :
  wf c → 0 < expiration c → queue c = e :: q →
  ∃ en exp,
    store c !! e = Some en ∧
    exp = GoTime.Add (timestamp en) (expiration c) ∧
    step SweepPeek (c, Idle) = Some (c, Peeked (Head e exp)) ∧
    (now1 ≤ exp →
     step (SweepAct now1 now2) (c, Peeked (Head e exp)) = Some (c, Idle)) ∧
    (exp < now1 →
     ∃ c', step (SweepAct now1 now2) (c, Peeked (Head e exp)) = Some (c', Idle) ∧
           wf c' ∧ queue c' = q ∧
           contents c' = filter (λ p, p.1 ≠ key en) (contents c)).
Proof.
  intros Hwf Hexp Hq.
  assert (e ∈ lru c) as Hin.
  { apply (wf_queue c Hwf Hexp). rewrite Hq. left. }
  pose proof (wf_alloc c Hwf e Hin) as [en Hen]%lookup_lt_is_Some.
  exists en, (GoTime.Add (timestamp en) (expiration c)).
  split; [done|]. split; [done|]. split_and!.
  - simpl. unfold sweepPeek. unfold queue in Hq. rewrite Hq, Hen. done.
  - intros Hle. simpl. unfold GoTime.After.
    by rewrite bool_decide_eq_false_2 by lia.
  - intros Hlt.
    destruct (contents_removeElement c e (key en) Hwf Hin)
      as (c' & Hr & Hwf' & Hc' & _ & _ & _ & _ & _ & Hq').
    { unfold key_of. by rewrite Hen. }
    exists c'. simpl. unfold GoTime.After.
    rewrite bool_decide_eq_true_2 by lia. rewrite Hr. simpl.
    split_and!; try done. rewrite (Hq' Hexp), Hq. simpl.
    by rewrite decide_True.
Qed.

Lemma take_app_take {A} (n : nat) (la lb : list A) :
  take n (la ++ take n lb) = take n (la ++ lb).
Proof.
  rewrite !take_app, take_take. do 2 f_equal. lia.
Qed.

(** A run of [Set] calls with new, distinct keys on a cache that is within
    its capacity. *)
Lemma inserts_run (C : Z) now kvs c (sw : sweeper) :
  wf c → maxEntries c = C → NoDup kvs.*1 →
  (∀ k, k ∈ kvs.*1 → k ∉ (contents c).*1) →
  C = 0 ∨ (length (contents c) ≤ Z.to_nat C)%nat →
  ∃ c', run (inserts now kvs) (c, sw) = Some (c', sw) ∧ wf c' ∧
    contents c' = if decide (C = 0) then rev kvs ++ contents c
                  else take (Z.to_nat C) (rev kvs ++ contents c).
Proof.
  revert now c. induction kvs as [|[k v] kvs IH]; intros now c Hwf HC Hnd Hnew Hfit.
  - exists c. split; [done|]. split; [done|]. simpl.
    destruct (decide (C = 0)); [done|]. destruct Hfit; [done|].
    by rewrite take_ge.
  - rewrite fmap_cons in Hnd. apply NoDup_cons in Hnd as [Hk Hnd].
    assert (absent k c) as Habs.
    { unfold absent. destruct (cmap c !! k) eqn:Hm; [|done].
      exfalso. apply (Hnew k); [left|]. apply (contents_key c k Hwf). eauto. }
    destruct (Set_absent_cases now k v c Hwf Habs)
      as (c1 & HS & Hwf1 & _ & Hmx1 & _ & Hc1 & _).
    rewrite HC, (evict_take C (k, v) (contents c) Hfit) in Hc1.
    destruct (IH (now + 1) c1 Hwf1) as (c' & Hrun & Hwf' & Hc'); [congruence|done| | |].
    + intros k' Hk' Hin. rewrite Hc1 in Hin.
      assert (k' ∈ ((k, v) :: contents c).*1) as Hin'.
      { destruct (decide (C = 0)); [done|].
        apply list_elem_of_fmap in Hin as (p & -> & Hp).
        apply list_elem_of_fmap. exists p. split; [done|].
        by apply (subseteq_take (Z.to_nat C)). }
      rewrite fmap_cons in Hin'. apply elem_of_cons in Hin' as [->|Hin'].
      * done.
      * apply (Hnew k'); [by right|done].
    + rewrite Hc1. destruct (decide (C = 0)); [by left|right].
      rewrite length_take. lia.
    + exists c'. split.
      { simpl. rewrite HS. simpl. exact Hrun. }
      split; [done|]. rewrite Hc', Hc1. simpl rev. rewrite <- !app_assoc. simpl.
      destruct (decide (C = 0)); [done|].
      by rewrite take_app_take.
Qed.

(** X6: from [New(C, expire)], a run of [Set] calls with distinct keys leaves
    exactly the last [C] of them, the latest first (all of them when [C] is
    zero, none when [C] is negative): these are found with their values, and
    the earlier ones are not found. *)
Theorem inserts_keep_most_recent (C expire now : Z) kvs :
  NoDup kvs.*1 →
  ∃ s, run (inserts now kvs) (init C expire) = Some s ∧
    contents s.1 = (if decide (C = 0) then rev kvs
                    else take (Z.to_nat C) (rev kvs)) ∧
    (∀ k v, (k, v) ∈ contents s.1 → found k s.1 = Some (v, true)) ∧
    (∀ k, k ∉ (contents s.1).*1 → found k s.1 = Some (None, false)).
Proof.
  intros Hnd. unfold init.
  destruct (inserts_run C now kvs (New C expire)
              (if bool_decide (0 < expire) then Idle else NotRunning))
    as (c' & Hrun & Hwf' & Hc'); try done.
  - apply wf_New.
  - intros k _. by intros ?%elem_of_nil.
  - right. simpl. lia.
  - assert (contents c' = if decide (C = 0) then rev kvs
                          else take (Z.to_nat C) (rev kvs)) as Hc''.
    { rewrite Hc'.
      change (contents (New C expire)) with (@nil (string * @iface V)).
      by rewrite app_nil_r. }
    exists (c', if bool_decide (0 < expire) then Idle else NotRunning).
    split; [done|]. simpl. split; [done|]. split.
    + intros k v. by apply found_contents.
    + intros k. by apply found_not_contents.
Qed.

End listclaims.

(** * What every interleaving keeps *)

Section interleavings.
Context {V : Type}.
Implicit Types (c : @Cache V) (e x : elem) (k : string) (v : @iface V)
  (l q : list elem) (m : gmap string elem) (s : @state V)
  (evs : list (@event V)).

Lemma linked_New (C expire : Z) : linked (New (V:=V) C expire).
Proof.
  split; unfold lru, cmap, queue_live, queue, key_of; simpl; eauto.
  - constructor.
  - by intros e ?%elem_of_nil.
  - intros k e. by rewrite lookup_empty.
  - intros e. case_bool_decide; simpl; by intros ?%elem_of_nil.
  - intros _. case_bool_decide; simpl; split; done || constructor.
Qed.

Lemma linked_Flush c : linked c → linked (Flush c).
Proof.
  intros Hlk.
  split; unfold lru, cmap, queue_live, queue, key_of, Flush, fresh_ttlIndex;
    simpl; eauto.
  - constructor.
  - by intros e ?%elem_of_nil.
  - intros k e. by rewrite lookup_empty.
  - intros e. case_bool_decide; simpl; [by intros ?%elem_of_nil|].
    apply (lk_qalloc c Hlk).
  - intros Hexp. rewrite bool_decide_eq_true_2 by done. simpl.
    split; done || constructor.
Qed.

(** Unlinking any element, linked or not, keeps the invariant: only the
    entry of the map under its key can go. *)
Lemma linked_removeElement e c :
  linked c →
  ∃ c', removeElement e c = Some c' ∧ linked c' ∧
        maxEntries c' = maxEntries c ∧ expiration c' = expiration c.
Proof.
  intros Hlk. destruct (lk_list c Hlk) as [l Hl].
  destruct (lk_map c Hlk) as [m Hm].
  pose proof (lru_Some c l Hl) as Hlru. pose proof (cmap_Some c m Hm) as Hcm.
  rewrite (removeElement_eq c e l Hl). eexists. split; [done|].
  split; [|done].
  split; unfold lru, cmap, key_of; simpl.
  - rewrite Hm. destruct (store c !! e); simpl; eauto.
  - eauto.
  - apply remove1_NoDup. rewrite <- Hlru. apply Hlk.
  - intros x Hx%remove1_subset. apply (lk_alloc c Hlk). by rewrite Hlru.
  - intros k x. rewrite Hm. destruct (store c !! e) as [kv|] eqn:Hkv; simpl.
    + intros [Hne Hx]%lookup_delete_Some. rewrite <- Hcm in Hx.
      apply (lk_entry c Hlk) in Hx as [Hin Hk]. split; [|done].
      apply remove1_elem_of_ne; [|by rewrite <- Hlru].
      intros ->. unfold key_of in Hk. rewrite Hkv in Hk. simpl in Hk.
      congruence.
    + intros Hx. rewrite <- Hcm in Hx.
      apply (lk_entry c Hlk) in Hx as [Hin Hk]. split; [|done].
      rewrite remove1_notin; [by rewrite <- Hlru|].
      intros He. rewrite <- Hlru in He.
      apply (lk_alloc c Hlk), lookup_lt_is_Some in He as [? ?]. congruence.
  - intros x Hx. apply (lk_qalloc c Hlk). unfold queue in *. simpl in Hx.
    case_bool_decide; [|done]. destruct (ttlIndex c); simpl in *; [|done].
    by apply remove1_subset in Hx.
  - intros Hexp. simpl in Hexp. destruct (lk_queue c Hlk Hexp) as [Hq Hs].
    unfold queue, lru. simpl. rewrite bool_decide_eq_true_2 by done.
    unfold queue in Hq, Hs. destruct (ttlIndex c) as [q|]; simpl in *.
    + split; [|by apply remove1_sorted].
      intros x. rewrite !remove1_elem_of, Hq, Hlru;
        [done | rewrite <- Hlru; apply Hlk | by apply sorted_NoDup].
    + split; [|constructor]. intros x. rewrite Hq, Hlru.
      split; [intros Hx; exfalso|by intros ?%remove1_subset].
      rewrite <- Hlru in Hx. apply Hq in Hx. by apply elem_of_nil in Hx.
Qed.

Lemma linked_reorder c l' (h' : list (@entry V)) :
  linked c →
  (∀ x, x ∈ l' ↔ x ∈ lru c) → NoDup l' →
  length h' = length (store c) →
  (∀ x, key <$> h' !! x = key <$> store c !! x) →
  linked (mkCache (maxEntries c) (Some l') (ttlIndex c) (cache c)
            (expiration c) h').
Proof.
  intros Hlk Hl Hnd Hlen Hkey.
  split; unfold lru, cmap, key_of, queue; simpl.
  - apply Hlk.
  - eauto.
  - done.
  - intros x Hx. rewrite Hlen. apply (lk_alloc c Hlk). by apply Hl.
  - intros k x Hx. rewrite Hkey, Hl. by apply (lk_entry c Hlk).
  - intros x Hx. rewrite Hlen. by apply (lk_qalloc c Hlk).
  - intros Hexp. destruct (lk_queue c Hlk Hexp) as [Hq Hs].
    unfold queue, lru in *. simpl. split; [|done]. intros x. by rewrite Hq, Hl.
Qed.

Lemma linked_MoveToFront c e l :
  linked c → lruIndex c = Some l →
  linked (with_lruIndex (GoList.MoveToFront e l) c).
Proof.
  intros Hlk Hl. apply (linked_reorder c); [done| | |done|done].
  - intros x. rewrite MoveToFront_elem_of. by rewrite (lru_Some c l).
  - apply MoveToFront_NoDup. rewrite <- (lru_Some c l Hl). apply Hlk.
Qed.

Lemma linked_insertNew now k v m l c :
  linked c → cache c = Some m → lruIndex c = Some l →
  linked (insertNew now k v m l c).
Proof.
  intros Hlk Hm Hl. rewrite insertNew_eq.
  pose proof (lru_Some c l Hl) as Hlru. pose proof (cmap_Some c m Hm) as Hcm.
  assert (∀ x, x ∈ l → (x < length (store c))%nat) as Hal.
  { intros x Hx. apply (lk_alloc c Hlk). by rewrite Hlru. }
  split; unfold lru, cmap, key_of; simpl.
  - eauto.
  - eauto.
  - constructor; [|rewrite <- Hlru; apply Hlk]. intros Hin%Hal. lia.
  - intros x. rewrite length_app, elem_of_cons. simpl.
    intros [->|Hx%Hal]; lia.
  - intros k' x. rewrite lookup_insert, elem_of_cons.
    destruct (decide (k = k')) as [<-|Hkk].
    + intros [= <-]. split; [by left|]. by rewrite lookup_app_r, Nat.sub_diag.
    + intros Hx. rewrite <- Hcm in Hx.
      apply (lk_entry c Hlk) in Hx as [Hx Hkx]. rewrite Hlru in Hx.
      split; [by right|]. unfold key_of in Hkx.
      by rewrite lookup_app_l by by apply Hal.
  - unfold queue. simpl. intros x. rewrite length_app. simpl.
    case_bool_decide; simpl.
    + rewrite elem_of_app, list_elem_of_singleton. intros [Hx| ->]; [|lia].
      pose proof (lk_qalloc c Hlk x Hx). lia.
    + intros Hx. pose proof (lk_qalloc c Hlk x Hx). lia.
  - intros Hexp. destruct (lk_queue c Hlk Hexp) as [Hq Hs].
    unfold queue, lru in *. simpl. rewrite bool_decide_eq_true_2 by done.
    simpl. split.
    + intros x. rewrite elem_of_app, !elem_of_cons, elem_of_nil, Hq.
      rewrite Hl. simpl. intuition congruence.
    + apply StronglySorted_app; repeat split; [|done|repeat constructor].
      intros x1 x2 Hx1 ->%list_elem_of_singleton. apply Hq in Hx1.
      rewrite Hl in Hx1. simpl in Hx1. by apply Hal.
Qed.

Lemma linked_Set now k v c :
  linked c →
  ∃ c', Set_ now k v c = Some c' ∧ linked c' ∧
        maxEntries c' = maxEntries c ∧ expiration c' = expiration c.
Proof.
  intros Hlk. destruct (lk_list c Hlk) as [l Hl].
  destruct (lk_map c Hlk) as [m Hm].
  assert (lazyInit c = c) as Hi by (unfold lazyInit; by rewrite Hm).
  unfold Set_. rewrite Hi, Hm. simpl. destruct (m !! k) as [e|] eqn:Hk.
  - rewrite <- (cmap_Some c m Hm) in Hk.
    apply (lk_entry c Hlk) in Hk as [Hin Hkey].
    pose proof (lk_alloc c Hlk e Hin) as [en Hen]%lookup_lt_is_Some.
    unfold SetPresent. rewrite Hl. simpl. rewrite Hen. simpl.
    eexists. split; [done|]. split; [|done].
    apply (linked_reorder c); [done| | | |].
    + intros x. rewrite MoveToFront_elem_of. by rewrite (lru_Some c l).
    + apply MoveToFront_NoDup. rewrite <- (lru_Some c l Hl). apply Hlk.
    + by rewrite length_insert.
    + intros x. by apply insert_same_key.
  - rewrite (SetAbsent_eq now k v m l c Hl).
    pose proof (linked_insertNew now k v m l c Hlk Hm Hl) as Hlk3.
    assert (maxEntries (insertNew now k v m l c) = maxEntries c ∧
            expiration (insertNew now k v m l c) = expiration c ∧
            cache (insertNew now k v m l c) = Some (<[k := length (store c)]> m) ∧
            lruIndex (insertNew now k v m l c) = Some (length (store c) :: l))
      as (Hx3 & He3 & Hm3 & Hl3).
    { by rewrite insertNew_eq. }
    destruct (_ && _); [|eauto].
    unfold removeOldest. rewrite Hm3, Hl3. simpl.
    destruct (GoList.Back (length (store c) :: l)) as [b|]; [|eauto].
    destruct (linked_removeElement b _ Hlk3) as (c' & -> & Hlk' & Hx' & He').
    exists c'. split_and!; congruence.
Qed.

Lemma linked_step ev s :
  linked s.1 →
  ∃ s', step ev s = Some s' ∧ linked s'.1 ∧
        maxEntries s'.1 = maxEntries s.1 ∧ expiration s'.1 = expiration s.1.
Proof.
  destruct s as [c sw]. simpl. intros Hlk.
  destruct (lk_list c Hlk) as [l Hl]. destruct (lk_map c Hlk) as [m Hm].
  destruct ev as [now k v|k|k| | | |now1 now2]; simpl.
  - destruct (linked_Set now k v c Hlk) as (c' & -> & Hlk' & ? & ?).
    simpl. by eexists.
  - unfold Get. rewrite Hm. destruct (m !! k) as [e|] eqn:Hk; [|by eexists].
    rewrite <- (cmap_Some c m Hm) in Hk.
    apply (lk_entry c Hlk) in Hk as [Hin Hkey].
    pose proof (lk_alloc c Hlk e Hin) as [en Hen]%lookup_lt_is_Some.
    rewrite Hl. simpl. rewrite Hen. simpl. eexists. split; [done|]. simpl.
    split; [|done]. by apply linked_MoveToFront.
  - unfold Delete. rewrite Hm. destruct (m !! k) as [e|]; [|by eexists].
    destruct (linked_removeElement e c Hlk) as (c' & -> & Hlk' & ? & ?).
    simpl. by eexists.
  - unfold Len. rewrite Hm, Hl. simpl. by eexists.
  - eexists. split; [done|]. simpl. split; [|done]. by apply linked_Flush.
  - destruct sw as [| |p]; [by eexists| |by eexists].
    unfold sweepPeek. destruct (slice (ttlIndex c)) as [|e q] eqn:Hq;
      [simpl; by eexists|].
    assert (e < length (store c))%nat as [en Hen]%lookup_lt_is_Some.
    { apply (lk_qalloc c Hlk). unfold queue. rewrite Hq. left. }
    rewrite Hen. simpl. by eexists.
  - destruct sw as [| |p]; [by eexists|by eexists|].
    destruct (sweepDecide _ _ _ _) as [d|e]; [by eexists|].
    destruct (linked_removeElement e c Hlk) as (c' & -> & Hlk' & ? & ?).
    simpl. by eexists.
Qed.

Lemma linked_run evs s :
  linked s.1 → ∃ s', run evs s = Some s' ∧ linked s'.1.
Proof.
  revert s. induction evs as [|ev evs IH]; intros s Hlk; simpl; [eauto|].
  destruct (linked_step ev s Hlk) as (s1 & -> & Hlk1 & _). simpl. by apply IH.
Qed.

End interleavings.

Section negative.
Context {V : Type}.
Implicit Types (c : @Cache V) (e x : elem) (k : string) (v : @iface V)
  (s : @state V) (evs : list (@event V)).

Lemma hollow_New (C expire : Z) : C < 0 → hollow (New (V:=V) C expire).
Proof.
  intros HC. split; try done. unfold queue. simpl. by case_bool_decide.
Qed.

Lemma hollow_Flush c : hollow c → hollow (Flush c).
Proof.
  intros [Hc Hm Hl Hq]. split; try done.
  unfold queue, Flush, fresh_ttlIndex in *. simpl. by case_bool_decide.
Qed.

Lemma hollow_removeElement e c :
  hollow c → ∃ c', removeElement e c = Some c' ∧ hollow c'.
Proof.
  intros [Hc Hm Hl Hq]. rewrite (removeElement_eq c e [] Hl).
  eexists. split; [done|]. split; simpl; try done.
  - rewrite Hm. destruct (store c !! e); simpl; [|done].
    by rewrite delete_empty.
  - unfold queue in *. simpl. case_bool_decide; [|done].
    destruct (ttlIndex c); simpl in *; [|done]. by rewrite Hq.
Qed.

(** With a negative capacity [Set] evicts what it has just inserted. *)
Lemma hollow_Set now k v c :
  hollow c → ∃ c', Set_ now k v c = Some c' ∧ hollow c'.
Proof.
  intros [Hc Hm Hl Hq].
  assert (lazyInit c = c) as Hi by (unfold lazyInit; by rewrite Hm).
  unfold Set_. rewrite Hi, Hm. simpl. rewrite lookup_empty.
  rewrite (SetAbsent_eq now k v ∅ [] c Hl).
  rewrite andb_true_intro.
  2: { split; apply bool_decide_eq_true_2; [lia|].
       unfold GoList.Len. simpl. lia. }
  rewrite insertNew_eq. unfold removeOldest. simpl.
  erewrite removeElement_eq by done. simpl. eexists. split; [done|].
  rewrite decide_True by done. rewrite lookup_app_r, Nat.sub_diag by done.
  simpl. split; simpl; try done.
  - by rewrite delete_insert_eq, delete_empty.
  - unfold queue in *. simpl. case_bool_decide; simpl; [|done].
    rewrite Hq. simpl. by rewrite decide_True.
Qed.

Lemma hollow_step ev s : hollow s.1 → ∃ s', step ev s = Some s' ∧ hollow s'.1.
Proof.
  destruct s as [c sw]. simpl. intros Hh. pose proof Hh as [Hc Hm Hl Hq].
  destruct ev as [now k v|k|k| | | |now1 now2]; simpl.
  - destruct (hollow_Set now k v c Hh) as (c' & -> & Hh'). simpl. by eexists.
  - unfold Get. rewrite Hm, lookup_empty. by eexists.
  - unfold Delete. rewrite Hm, lookup_empty. by eexists.
  - unfold Len. rewrite Hm, Hl. simpl. by eexists.
  - eexists. split; [done|]. by apply hollow_Flush.
  - destruct sw as [| |p]; [by eexists| |by eexists].
    unfold sweepPeek. unfold queue in Hq. rewrite Hq. simpl. by eexists.
  - destruct sw as [| |p]; [by eexists|by eexists|].
    destruct (sweepDecide _ _ _ _) as [d|e]; [by eexists|].
    destruct (hollow_removeElement e c Hh) as (c' & -> & Hh'). simpl.
    by eexists.
Qed.

Lemma hollow_run evs s : hollow s.1 → ∃ s', run evs s = Some s' ∧ hollow s'.1.
Proof.
  revert s. induction evs as [|ev evs IH]; intros s Hh; simpl; [eauto|].
  destruct (hollow_step ev s Hh) as (s1 & -> & Hh1). simpl. by apply IH.
Qed.

End negative.

Section listtwice.
Context {V : Type}.
Implicit Types (c : @Cache V) (k : string) (v : @iface V)
  (ps : list (string * @iface V)).

Lemma filter_other_keys k ps :
  k ∉ ps.*1 → filter (λ p, p.1 ≠ k) ps = ps.
Proof.
  induction ps as [|[k' v'] ps IH]; [done|].
  rewrite fmap_cons, not_elem_of_cons. simpl. intros [Hne Hk].
  rewrite filter_cons_True by (simpl; congruence). by rewrite IH.
Qed.

(** The list after [Set], as in X2. *)
Lemma Set_contents now k v c :
  wf c →
  ∃ c', Set_ now k v c = Some c' ∧ wf c' ∧
    maxEntries c' = maxEntries c ∧
    contents c' =
      (if decide (k ∈ (contents c).*1)
       then (k, v) :: filter (λ p, p.1 ≠ k) (contents c)
       else evict (maxEntries c) ((k, v) :: contents c)).
Proof.
  intros Hwf. destruct (decide (k ∈ (contents c).*1)) as [Hin|Hout].
  - apply (contents_key c k Hwf) in Hin as [e He].
    destruct (Set_present now k v c e Hwf He) as (en & _ & _ & _ & _ & HS & Hwf').
    eexists. split; [exact HS|]. split; [done|]. split; [done|].
    by apply contents_touch.
  - assert (absent k c) as Hk.
    { unfold absent. destruct (cmap c !! k) eqn:Hm; [|done].
      exfalso. apply Hout, (contents_key c k Hwf). eauto. }
    destruct (Set_absent_cases now k v c Hwf Hk)
      as (c' & HS & Hwf' & _ & Hmx & _ & Hc' & _).
    by exists c'.
Qed.

End listtwice.

Section moreclaims.
Context {V : Type}.
Implicit Types (c : @Cache V) (k : string) (v : @iface V)
  (ps : list (string * @iface V)) (evs : list (@event V)).

(** X7: on a cache that satisfies the structural invariant [wf],
    [Set(k, v)] is idempotent on what the cache holds: a second [Set(k, v)],
    at whatever time, leaves the list of keys and values as the first one
    left it. *)
Theorem Set_twice now1 now2 k v c :
  wf c →
  ∃ c1 c2, Set_ now1 k v c = Some c1 ∧ Set_ now2 k v c1 = Some c2 ∧
           contents c2 = contents c1.
Proof.
  intros Hwf.
  destruct (Set_contents now1 k v c Hwf) as (c1 & HS1 & Hwf1 & Hmx1 & Hc1).
  destruct (Set_contents now2 k v c1 Hwf1) as (c2 & HS2 & Hwf2 & Hmx2 & Hc2).
  exists c1, c2. split; [done|]. split; [done|]. rewrite Hc2.
  assert ((∃ rest, contents c1 = (k, v) :: rest ∧ k ∉ rest.*1) ∨
          (contents c1 = [] ∧ evict (maxEntries c) [(k, v)] = []))
    as [(rest & Hrest & Hk)|[Hnil Hev]].
  { rewrite Hc1. destruct (decide (k ∈ (contents c).*1)) as [Hin|Hout].
    - left. eexists. split; [done|].
      intros (p & Hp & [Hne _]%list_elem_of_filter)%list_elem_of_fmap.
      congruence.
    - unfold evict. destruct (_ && _) eqn:Hfire; [|left; by eexists].
      destruct (contents c) as [|p ps'] eqn:Hcc.
      + right. split; [done|]. unfold evict. by rewrite Hfire.
      + left. exists (removelast (p :: ps')). split; [done|].
        intros (p' & Hp' & Hin%removelast_subset)%list_elem_of_fmap.
        apply Hout, list_elem_of_fmap. eauto. }
  - rewrite Hrest. rewrite decide_True by (rewrite fmap_cons; left).
    rewrite filter_cons_False by (simpl; intros Hne; by apply Hne).
    by rewrite filter_other_keys.
  - rewrite Hnil. rewrite decide_False by (by intros ?%elem_of_nil).
    by rewrite Hmx1, Hev.
Qed.

(** X8: from [New(C, expire)], for any [C] and [expire] and after any
    interleaving of calls and sweeper steps, no call has panicked, the list
    has no element twice, every entry of the map points at a linked element
    that holds its key, and with expiration on the expiry slice holds
    exactly the linked elements in the order of their insertion. *)
Theorem every_interleaving_linked (C expire : Z) evs :
  ∃ s, run evs (init C expire) = Some s ∧
    is_Some (Len s.1) ∧
    NoDup (lru s.1) ∧
    (∀ k e, cmap s.1 !! k = Some e → e ∈ lru s.1 ∧ key_of s.1 e = Some k) ∧
    queue_live s.1.
Proof.
  destruct (linked_run evs (init C expire)) as (s & Hrun & Hlk);
    [apply linked_New|].
  exists s. split; [done|]. split_and!; try apply Hlk.
  unfold Len. destruct (lk_map _ Hlk) as [m ->].
  destruct (lk_list _ Hlk) as [l ->]. simpl. eauto.
Qed.

(** X9: from [New(C, expire)] with [C > 0], [Len] is at most [C] after any
    interleaving of calls and sweeper steps, not only after [Set]. *)
Theorem capacity_at_all_times (C expire : Z) evs :
  0 < C →
  ∃ s n, run evs (init C expire) = Some s ∧ Len s.1 = Some n ∧ 0 ≤ n ≤ C.
Proof.
  intros HC.
  destruct (bounded_run C evs (init C expire) HC (bounded_init C expire HC))
    as (s & Hrun & _ & Hs & Hlen).
  exists s, (GoList.Len (lru s.1)). split; [done|]. split.
  - unfold Len, lru. destruct (sd_map _ Hs) as [m ->].
    by destruct (sd_list _ Hs) as [l ->].
  - unfold GoList.Len in *. lia.
Qed.

(** X10: a cache made with a negative capacity never holds anything: after
    any interleaving of calls and sweeper steps [Len] is 0 and [Get] misses
    on every key, also on one that has just been set. *)
Theorem negative_capacity_holds_nothing (C expire : Z) evs :
  C < 0 →
  ∃ s, run evs (init C expire) = Some s ∧ Len s.1 = Some 0 ∧
       ∀ k, found k s.1 = Some (None, false).
Proof.
  intros HC.
  destruct (hollow_run evs (init C expire)) as (s & Hrun & Hh);
    [by apply hollow_New|].
  destruct Hh as [_ Hm Hl _]. exists s. split; [done|].
  unfold Len, found, Get. rewrite Hm, Hl. split; [done|].
  intros k. by rewrite lookup_empty.
Qed.

(** X11: when every turn of the sweeper runs without a call in between, all
    the calls and the sweeper keep the map and the list on the same key set
    and, with expiration on, the expiry slice on the linked elements in the
    order of their insertion; none of them panics. *)
Theorem uninterrupted_turns_keep_invariants (C expire : Z) evs :
  atomic evs = true →
  ∃ s, run evs (init C expire) = Some s ∧
       wf s.1 ∧ same_keys s.1 ∧ queue_live s.1.
Proof.
  intros Hat.
  destruct (wf_run_atomic evs (init C expire)) as (s & Hrun & Hwf & _).
  - apply wf_New.
  - unfold sweeper_at_rest, init. simpl. case_bool_decide; [by right|by left].
  - done.
  - exists s. split; [done|]. split; [done|]. by apply wf_same_keys.
Qed.

End moreclaims.

(** ** Instances on worked states *)

Lemma contents_answers_witness :
  NoDup (contents two_slots).*1 ∧
  Len two_slots = Some (Z.of_nat (length (contents two_slots))) ∧
  (∀ k v, found k two_slots = Some (v, true) ↔ (k, v) ∈ contents two_slots) ∧
  (∀ k, found k two_slots = Some (None, false) ↔ k ∉ (contents two_slots).*1).
Proof. apply contents_answers. by apply wf_after. Defined.

Lemma Set_on_contents_witness :
  ∃ c', Set_ 5 "c" (Some 3) two_slots = Some c' ∧
        contents c' = [("c", Some 3); ("b", Some 2)].
Proof.
  destruct (Set_on_contents 5 "c" (Some 3) two_slots) as (c' & HS & _ & Hc & _).
  - by apply wf_after.
  - exists c'. split; [exact HS|]. rewrite Hc. vm_compute. reflexivity.
Defined.


Lemma Delete_on_contents_witness :
  ∃ c', Delete "a" two_slots = Some c' ∧
        contents c' = filter (λ p, p.1 ≠ "a") (contents two_slots) ∧
        found "a" c' = Some (None, false).
Proof.
  destruct (Delete_on_contents "a" two_slots) as (c' & HD & _ & Hc & Hf & _).
  - by apply wf_after.
  - by exists c'.
Defined.

Lemma sweeper_turn_on_contents_witness :
  step SweepPeek (two_timed, Idle) = Some (two_timed, Peeked (Head 0%nat 10)) ∧
  step (SweepAct 10 10) (two_timed, Peeked (Head 0%nat 10))
    = Some (two_timed, Idle) ∧
  ∃ c', step (SweepAct 12 12) (two_timed, Peeked (Head 0%nat 10))
          = Some (c', Idle) ∧
        wf c' ∧ queue c' = [1%nat] ∧ contents c' = [("b", Some 2)].
Proof.
  destruct (sweeper_turn_on_contents two_timed 0%nat [1%nat] 10 10)
    as (en & exp & Hen & Hexp & Hpeek & Hkeep & _).
  { by apply wf_after. }
  { vm_compute. reflexivity. }
  { vm_compute. reflexivity. }
  destruct (sweeper_turn_on_contents two_timed 0%nat [1%nat] 12 12)
    as (en' & exp' & Hen' & Hexp' & _ & _ & Hgo).
  { by apply wf_after. }
  { vm_compute. reflexivity. }
  { vm_compute. reflexivity. }
  vm_compute in Hen, Hen'. injection Hen as <-. injection Hen' as <-.
  vm_compute in Hexp, Hexp'. subst exp exp'.
  split; [exact Hpeek|]. split; [apply Hkeep; lia|].
  destruct Hgo as (c' & Hstep & Hwf & Hq & Hc); [lia|].
  exists c'. split; [exact Hstep|]. split; [exact Hwf|]. split; [exact Hq|].
  rewrite Hc. vm_compute. reflexivity.
Defined.

Lemma inserts_keep_most_recent_witness :
  ∃ s, run (inserts 0 [("a", Some 1); ("b", Some 2); ("c", Some 3)]) (init 2 0)
         = Some s ∧
       contents s.1 = [("c", Some 3); ("b", Some 2)].
Proof.
  destruct (inserts_keep_most_recent 2 0 0
              [("a", Some 1); ("b", Some 2); ("c", Some 3)])
    as (s & Hrun & Hc & _).
  - refine (bool_decide_unpack _ _). vm_compute. exact I.
  - by exists s.
Defined.

Lemma Set_twice_witness :
  ∃ c1 c2, Set_ 5 "c" (Some 3) two_slots = Some c1 ∧
           Set_ 6 "c" (Some 3) c1 = Some c2 ∧ contents c2 = contents c1.
Proof. apply Set_twice. by apply wf_after. Defined.

Lemma capacity_at_all_times_witness :
  ∃ s n, run [CallSet 0 "a" (Some 1); CallSet 1 "b" (Some 2);
              CallSet 2 "c" (Some 3); CallDelete "b"] (init 2 0) = Some s ∧
         Len s.1 = Some n ∧ 0 ≤ n ≤ 2.
Proof. apply capacity_at_all_times. lia. Defined.

Lemma negative_capacity_holds_nothing_witness :
  ∃ s, run [CallSet 0 "a" (Some 1)] (init (-1) 0) = Some s ∧
       Len s.1 = Some 0 ∧ ∀ k, found k s.1 = Some (None, false).
Proof. apply negative_capacity_holds_nothing. lia. Defined.

Lemma uninterrupted_turns_keep_invariants_witness :
  ∃ s, run [CallSet 0 "k" (Some 1); SweepPeek; SweepAct 11 11; CallGet "k"]
         (init 0 10) = Some s ∧
       wf s.1 ∧ same_keys s.1 ∧ queue_live s.1.
Proof. apply uninterrupted_turns_keep_invariants. reflexivity. Defined.


(** ** Where the stale removal of the sweeper leads *)

(** C7 (the code misses it): after the sweeper has removed an element it
    found before ["k"] was deleted and written again, the list holds an
    element of ["k"] that the map does not know.  At capacity 1 the next
    [Set("k", 3)] inserts a new element, exceeds the capacity and evicts the
    old one from the back, which deletes the map entry just made: the [Get]
    that follows at once misses.  The defect is the one of C5. *)
Theorem Set_then_Get_misses_after_stale_sweep :
  run stale_trace (init 1 10) = Some (orphaned 1, Idle) ∧
  lru (orphaned 1) = [1%nat] ∧ cmap (orphaned 1) !! "k" = None ∧
  ∃ c', Set_ 13 "k" (Some 3) (orphaned 1) = Some c' ∧
        lru c' = [2%nat] ∧ key_of c' 2%nat = Some "k" ∧
        Get "k" c' = Some (c', (None, false)).
Proof.
  split; [vm_compute; reflexivity|]. split; [vm_compute; reflexivity|].
  split; [vm_compute; reflexivity|]. eexists.
  split; [vm_compute; reflexivity|]. split; [vm_compute; reflexivity|].
  split; vm_compute; reflexivity.
Qed.

(** C2 as it is stated fails in two ways.  At capacity 1 the key that was
    just read is the only entry, hence the back of the list, and the insert
    evicts it.  And at capacity 2, once the stale removal of the sweeper has
    left an old element of ["k"] at the back of the list, the insert evicts
    that element and with it the map entry of the ["k"] that was just read,
    although the cache holds two entries. *)
Lemma read_key_can_be_evicted :
  (∃ c1 c2,
     maxEntries one_slot = 1 ∧
     Get "a" one_slot = Some (c1, (Some 1, true)) ∧
     Set_ 1 "b" (Some 2) c1 = Some c2 ∧
     Get "a" c2 = Some (c2, (None, false))) ∧
  (∃ c1 c2,
     run (stale_trace ++ [CallSet 13 "k" (Some 3)]) (init 2 10)
       = Some (rewritten_orphan, Idle) ∧
     maxEntries rewritten_orphan = 2 ∧ Len rewritten_orphan = Some 2 ∧
     Get "k" rewritten_orphan = Some (c1, (Some 3, true)) ∧
     Set_ 14 "n" (Some 9) c1 = Some c2 ∧
     Len c2 = Some 2 ∧
     Get "k" c2 = Some (c2, (None, false))).
Proof.
  split.
  - eexists _, _. split; [reflexivity|].
    split; [vm_compute; reflexivity|].
    split; vm_compute; reflexivity.
  - eexists _, _. split; [vm_compute; reflexivity|].
    split; [reflexivity|]. split; [vm_compute; reflexivity|].
    split; [vm_compute; reflexivity|].
    split; [vm_compute; reflexivity|].
    split; vm_compute; reflexivity.
Defined.
